(** * Snowflake identifier generator (snowflake.go)

    A shallow embedding of the [snowflake] package and the properties of
    its identifier scheme.

    - Go's [int64] is a [Z] whose wrap-around is written out ([wrap64]).
    - The system clock is the list of the successive values that
      [time.Now().UnixNano()] returns; every reading consumes one sample.
      A computation that needs more samples than the trace holds (the
      busy-wait of [tilNextMillis] on a clock that has not advanced yet)
      yields [None].
    - [Next] is modelled for sequential callers: the mutex is taken and
      released inside one call, so it has no effect on a sequential run. *)

From Stdlib Require Import ZArith List Lia Bool String Sorted.
Import ListNotations.

Local Open Scope Z_scope.

(** ** 64-bit signed integers *)

Module Int64.

Definition min : Z := - 2 ^ 63.
Definition max : Z := 2 ^ 63 - 1.

Definition inRange (z : Z) : Prop := min <= z <= max.

(** two's complement wrap-around of an exact result *)
Definition wrap64 (z : Z) : Z := (z + 2 ^ 63) mod 2 ^ 64 - 2 ^ 63.

Definition add (a b : Z) : Z := wrap64 (a + b).
Definition sub (a b : Z) : Z := wrap64 (a - b).
(** [a << n] on int64: the bits shifted out at the top are lost *)
Definition shl (a n : Z) : Z := wrap64 (Z.shiftl a n).
(** [a / b] on int64 truncates toward zero *)
Definition div (a b : Z) : Z := wrap64 (Z.quot a b).

End Int64.

(** ** Constants (snowflake.go, lines 20-33)

    The constant expressions are untyped in Go, hence exact. *)

Definition twepoch : Z := 1546272000000.

Definition workerIDBits : Z := 5.
Definition datacenterIDBits : Z := 5.
Definition maxWorkerID : Z := Z.lxor (-1) (Z.shiftl (-1) workerIDBits).
Definition maxDatacenterID : Z := Z.lxor (-1) (Z.shiftl (-1) datacenterIDBits).
Definition sequenceBits : Z := 12.

Definition workerIDShift : Z := sequenceBits.
Definition datacenterIDShift : Z := sequenceBits + workerIDBits.
Definition timestampLeftShift : Z := sequenceBits + workerIDBits + datacenterIDBits.
Definition sequenceMask : Z := Z.lxor (-1) (Z.shiftl (-1) sequenceBits).

(** ** The generator state (lines 35-41; the mutex carries no data) *)

Record worker : Type := mkWorker {
  workerID : Z;
  datacenterID : Z;
  sequence : Z;
  lastTimestamp : Z
}.

Definition set_sequence (w : worker) (s : Z) : worker :=
  mkWorker (workerID w) (datacenterID w) s (lastTimestamp w).

Definition set_lastTimestamp (w : worker) (t : Z) : worker :=
  mkWorker (workerID w) (datacenterID w) (sequence w) t.

(** ** Construction (lines 49-57)

    [log.Fatalf] prints its message and ends the process: no worker is
    returned. The arguments are [uint8] values. *)

Inductive construction : Type :=
| Fatalf (format : string) (arg : Z)
| Returned (w : worker).

Definition NewWorker (workerID datacenterID : Z) : construction :=
  if workerID >? maxWorkerID then
    Fatalf "worker Id can't be greater than %d or less than 0" maxWorkerID
  else if datacenterID >? maxDatacenterID then
    Fatalf "datacenter Id can't be greater than %d or less than 0" maxDatacenterID
  else Returned (mkWorker workerID datacenterID 0 0).

(** [var DefaultWorker = &worker{}] (line 93) *)
Definition DefaultWorker : worker := mkWorker 0 0 0 0.

(** ** The clock, and computations that read it *)

Definition Clock : Type := list Z.

Definition M (A : Type) : Type := Clock -> option (A * Clock).

Definition ret {A} (a : A) : M A := fun c => Some (a, c).

Definition bind {A B} (m : M A) (k : A -> M B) : M B :=
  fun c => match m c with
           | Some (a, c') => k a c'
           | None => None
           end.

Notation "x <- m ;; k" := (bind m (fun x => k))
  (at level 61, m at next level, right associativity).

(** [time.Now().UnixNano()] *)
Definition UnixNano : M Z :=
  fun c => match c with
           | [] => None
           | s :: c' => Some (s, c')
           end.

(** the millisecond of a nanosecond reading: [UnixNano() / 1e6] *)
Definition millis (nanos : Z) : Z := Int64.div nanos 1000000.

Definition nowMillis : M Z := n <- UnixNano ;; ret (millis n).

(** ** tilNextMillis (lines 59-65) *)

Fixpoint tilNextMillis (lastTimestamp : Z) (c : Clock) : option (Z * Clock) :=
  match c with
  | [] => None
  | s :: c' =>
      let timestamp := millis s in
      if timestamp <=? lastTimestamp then tilNextMillis lastTimestamp c'
      else Some (timestamp, c')
  end.

(** ** Next (lines 68-90) *)

Inductive error : Type :=
| Errorf (format : string) (arg : Z).

(** what [Next] returns: [(int64, error)], [None] being the nil error *)
Definition Ret : Type := (Z * option error)%type.

(** lines 74-82: the sequence update, which may replace the timestamp *)
Definition advance (w : worker) (timestamp : Z) : M (Z * worker) :=
  if timestamp =? lastTimestamp w then
    let w1 := set_sequence w (Z.land (Int64.add (sequence w) 1) sequenceMask) in
    if sequence w1 =? 0 then
      fun c => match tilNextMillis (lastTimestamp w1) c with
               | Some (t, c') => Some ((t, w1), c')
               | None => None
               end
    else ret (timestamp, w1)
  else ret (timestamp, set_sequence w 0).

(** lines 84-87 *)
Definition composeID (timestamp : Z) (w : worker) : Z :=
  Z.lor
    (Z.lor
       (Z.lor (Int64.shl (Int64.sub timestamp twepoch) timestampLeftShift)
              (Int64.shl (datacenterID w) datacenterIDShift))
       (Int64.shl (workerID w) workerIDShift))
    (sequence w).

Definition Next (w : worker) : M (Ret * worker) :=
  timestamp <- nowMillis ;;
  if timestamp <? lastTimestamp w then
    ret ((0, Some (Errorf "Clock moved backwards.  Refusing to generate id for %d milliseconds"
                          (Int64.sub (lastTimestamp w) timestamp))), w)
  else
    r <- advance w timestamp ;;
    let '(timestamp, w1) := r in
    let w2 := set_lastTimestamp w1 timestamp in
    let id := composeID timestamp w2 in
    ret ((id, None), w2).

(** [N] sequential calls on one generator: what each call returned and
    the state it left, in call order, and the rest of the clock *)
Fixpoint NextN (n : nat) (w : worker) : M (list (Ret * worker)) :=
  match n with
  | O => ret []
  | S n' =>
      r <- Next w ;;
      rs <- NextN n' (snd r) ;;
      ret (r :: rs)
  end.

(** ** The package-level [Next] (lines 95-98)

    [func Next()] calls [DefaultWorker.Next()]: the state [d] of the
    package's [DefaultWorker] is threaded through the calls, starting from
    the zero value. *)
Definition snowflake_Next (d : worker) : M (Ret * worker) := Next d.

(** the states [DefaultWorker] goes through under calls of the package's
    [Next] *)
Inductive defaultWorkerState : worker -> Prop :=
| default_initial : defaultWorkerState DefaultWorker
| default_next (d : worker) (c : Clock) (r : Ret) (d' : worker) (c' : Clock) :
    defaultWorkerState d -> snowflake_Next d c = Some ((r, d'), c') ->
    defaultWorkerState d'.

(** ** Vocabulary of the properties *)

(** the fields a generator can hold: identities are [uint8] values that
    passed the checks of [NewWorker] (or the zeros of [DefaultWorker]), and
    the sequence is always a masked value *)
Definition wfID (w : worker) : Prop :=
  0 <= workerID w <= 31 /\ 0 <= datacenterID w <= 31 /\ 0 <= sequence w <= 4095.

(** a millisecond value obtained from an int64 nanosecond reading *)
Definition isMillis (t : Z) : Prop :=
  - 9223372036854 <= t <= 9223372036854.

(** the timestamp delta fits the identifier without overflowing int64 *)
Definition inLifetime (t : Z) : Prop :=
  - 2 ^ 41 <= t - twepoch < 2 ^ 41.

(** the inverse shifts: reading the fields back from an identifier *)
Definition decodeSequence (id : Z) : Z := Z.land id 4095.
Definition decodeWorkerID (id : Z) : Z := Z.land (Z.shiftr id 12) 31.
Definition decodeDatacenterID (id : Z) : Z := Z.land (Z.shiftr id 17) 31.
Definition decodeTimestampDelta (id : Z) : Z := Z.shiftr id 22.

(** the value of the local [timestamp] when line 83 stores it *)
Definition effectiveMillis (w : worker) (c : Clock) : option Z :=
  match nowMillis c with
  | Some (timestamp, c') =>
      if timestamp <? lastTimestamp w then None
      else match advance w timestamp c' with
           | Some ((t, _), _) => Some t
           | None => None
           end
  | None => None
  end.

(** the states of a generator built by [NewWorker wid dcid]: the fresh
    worker, and whatever any number of calls of [Next] make of it, the
    clock readings being int64 values *)
Inductive generatorOf (wid dcid : Z) : worker -> Prop :=
| gen_new (w : worker) :
    NewWorker wid dcid = Returned w -> generatorOf wid dcid w
| gen_next (w : worker) (c : Clock) (r : Ret) (w' : worker) (c' : Clock) :
    generatorOf wid dcid w -> Forall Int64.inRange c ->
    Next w c = Some ((r, w'), c') ->
    generatorOf wid dcid w'.

(** the pair that must never repeat for one generator *)
Definition key (w : worker) : Z * Z := (lastTimestamp w, sequence w).

Definition keyLt (a b : Z * Z) : Prop :=
  fst a < fst b \/ (fst a = fst b /\ snd a < snd b).

Definition succeeded (r : Ret * worker) : Prop := snd (fst r) = None.

Definition idOf (r : Ret * worker) : Z := fst (fst r).

Definition succeededb (r : Ret * worker) : bool :=
  match snd (fst r) with
  | None => true
  | Some _ => false
  end.

(** the calls of a run that returned an identifier *)
Definition issued (tr : list (Ret * worker)) : list (Ret * worker) :=
  filter succeededb tr.

(** the state a run leaves the generator in *)
Definition stateAfter (w : worker) (tr : list (Ret * worker)) : worker :=
  last (map snd tr) w.

(** what holds of a call that succeeded somewhere after state [w] *)
Definition issuedAfter (w : worker) (r : Ret * worker) : Prop :=
  wfID (snd r) /\
  workerID (snd r) = workerID w /\ datacenterID (snd r) = datacenterID w /\
  keyLt (key w) (key (snd r)) /\
  idOf r = composeID (lastTimestamp (snd r)) (snd r).

(** the readings of the clock eventually pass [t] *)
Definition advancesPast (t : Z) (c : Clock) : Prop :=
  Exists (fun s => t < millis s) c.

(** the condition under which a call busy-waits: same millisecond and the
    incremented sequence wraps to zero *)
Definition exhausted (w : worker) (timestamp : Z) : Prop :=
  timestamp = lastTimestamp w /\
  Z.land (Int64.add (sequence w) 1) sequenceMask = 0.

(** every call of a run samples a time that is not before the stored
    [lastTimestamp] at the moment of the call *)
Fixpoint nonRegressing (n : nat) (w : worker) (c : Clock) : Prop :=
  match n with
  | O => True
  | S n' =>
      match c with
      | [] => True
      | s :: _ =>
          lastTimestamp w <= millis s /\
          match Next w c with
          | Some (r, c') => nonRegressing n' (snd r) c'
          | None => True
          end
      end
  end.

(** the clock trace serves a run of [n] calls: it holds a reading for
    every call to sample, and whenever a call has to wait for the next
    millisecond the readings that follow pass lastTimestamp *)
Fixpoint clockServes (n : nat) (w : worker) (c : Clock) : Prop :=
  match n with
  | O => True
  | S n' =>
      match c with
      | [] => False
      | s :: rest =>
          (exhausted w (millis s) -> advancesPast (lastTimestamp w) rest) /\
          match Next w c with
          | Some (r, c') => clockServes n' (snd r) c'
          | None => True
          end
      end
  end.

(** ** Arithmetic of int64 and of the bit fields *)

Section Bits.

Lemma wrap64_small (z : Z) : Int64.inRange z -> Int64.wrap64 z = z.
Proof.
  unfold Int64.inRange, Int64.min, Int64.max, Int64.wrap64. intros H.
  rewrite Z.mod_small; lia.
Qed.

Lemma wrap64_range (z : Z) : Int64.inRange (Int64.wrap64 z).
Proof.
  unfold Int64.inRange, Int64.min, Int64.max, Int64.wrap64.
  pose proof (Z.mod_pos_bound (z + 2 ^ 63) (2 ^ 64)). lia.
Qed.

(** wrapping changes a value by a multiple of [2^64] *)
Lemma wrap64_multiple (z : Z) : exists k, Int64.wrap64 z = z + k * 2 ^ 64.
Proof.
  unfold Int64.wrap64. exists (- ((z + 2 ^ 63) / 2 ^ 64)).
  rewrite Z.mod_eq by lia. lia.
Qed.

Lemma testbit_below (b n i : Z) :
  0 <= b < 2 ^ n -> n <= i -> Z.testbit b i = false.
Proof.
  intros [Hb0 Hb] Hi.
  destruct (Z.eq_dec b 0) as [->|Hnz]; [apply Z.bits_0|].
  apply Z.bits_above_log2; [lia|].
  assert (Z.log2 b < n); [|lia].
  apply Z.log2_lt_pow2; lia.
Qed.

(** [or]-ing a field below a multiple of [2^n] adds it *)
Lemma lor_mul_pow2_low (a b n : Z) :
  0 <= n -> 0 <= b < 2 ^ n -> Z.lor (a * 2 ^ n) b = a * 2 ^ n + b.
Proof.
  intros Hn Hb.
  assert (Hland : Z.land (a * 2 ^ n) b = 0).
  { apply Z.bits_inj'. intros i Hi.
    rewrite Z.land_spec, Z.bits_0.
    destruct (Z.lt_ge_cases i n) as [Hlt|Hge].
    - rewrite Z.mul_pow2_bits_low by lia. reflexivity.
    - rewrite (testbit_below b n i) by lia. apply andb_false_r. }
  rewrite <- Z.lxor_lor by exact Hland.
  symmetry. apply Z.add_nocarry_lxor. exact Hland.
Qed.

Lemma shl_multiple (a n : Z) :
  0 <= n <= 64 -> exists m, Int64.shl a n = m * 2 ^ n.
Proof.
  intros Hn. unfold Int64.shl.
  destruct (wrap64_multiple (Z.shiftl a n)) as [k Hk].
  rewrite Hk, Z.shiftl_mul_pow2 by lia.
  exists (a + k * 2 ^ (64 - n)).
  replace (2 ^ 64) with (2 ^ (64 - n) * 2 ^ n).
  - ring.
  - rewrite <- Z.pow_add_r by lia. f_equal. lia.
Qed.

Lemma shl_small (a n : Z) :
  0 <= n -> Int64.inRange (a * 2 ^ n) -> Int64.shl a n = a * 2 ^ n.
Proof.
  intros Hn H. unfold Int64.shl.
  rewrite Z.shiftl_mul_pow2 by lia. apply wrap64_small. exact H.
Qed.

End Bits.

(** ** The shape of a composed identifier *)

Lemma constants_values :
  maxWorkerID = 31 /\ maxDatacenterID = 31 /\ sequenceMask = 4095 /\
  workerIDShift = 12 /\ datacenterIDShift = 17 /\ timestampLeftShift = 22.
Proof. repeat split; reflexivity. Qed.

(** three fields packed below a multiple of [2^22] *)
Lemma lor_fields (m d w q : Z) :
  0 <= d <= 31 -> 0 <= w <= 31 -> 0 <= q <= 4095 ->
  Z.lor (Z.lor (Z.lor (m * 2 ^ 22) (d * 2 ^ 17)) (w * 2 ^ 12)) q =
  m * 2 ^ 22 + d * 2 ^ 17 + w * 2 ^ 12 + q.
Proof.
  intros Hd Hw Hq.
  rewrite (lor_mul_pow2_low m (d * 2 ^ 17) 22) by lia.
  replace (m * 2 ^ 22 + d * 2 ^ 17) with ((m * 32 + d) * 2 ^ 17) by lia.
  rewrite (lor_mul_pow2_low _ (w * 2 ^ 12) 17) by lia.
  replace ((m * 32 + d) * 2 ^ 17 + w * 2 ^ 12)
    with (((m * 32 + d) * 32 + w) * 2 ^ 12) by lia.
  rewrite (lor_mul_pow2_low _ q 12) by lia.
  lia.
Qed.

Lemma shl_field (x n : Z) :
  0 <= x <= 31 -> 0 <= n <= 17 -> Int64.shl x n = x * 2 ^ n.
Proof.
  intros Hx Hn. apply shl_small; [lia|].
  assert (0 < 2 ^ n <= 2 ^ 17).
  { split; [apply Z.pow_pos_nonneg; lia | apply Z.pow_le_mono_r; lia]. }
  unfold Int64.inRange, Int64.min, Int64.max. nia.
Qed.

(** whatever the timestamp, the low 22 bits hold the three fields *)
Lemma composeID_fields (t : Z) (w : worker) :
  wfID w ->
  exists m, composeID t w =
            m * 2 ^ 22 + datacenterID w * 2 ^ 17 + workerID w * 2 ^ 12 + sequence w.
Proof.
  intros (Hw & Hd & Hs). unfold composeID.
  change timestampLeftShift with 22. change datacenterIDShift with 17.
  change workerIDShift with 12.
  destruct (shl_multiple (Int64.sub t twepoch) 22) as [m Hm]; [lia|].
  exists m. rewrite Hm, !shl_field by lia.
  apply lor_fields; assumption.
Qed.

(** within the lifetime of the scheme nothing wraps *)
Lemma composeID_exact (t : Z) (w : worker) :
  wfID w -> inLifetime t ->
  composeID t w =
  (t - twepoch) * 2 ^ 22 + datacenterID w * 2 ^ 17 + workerID w * 2 ^ 12 + sequence w.
Proof.
  intros (Hw & Hd & Hs) Ht. unfold inLifetime in Ht. unfold composeID.
  change timestampLeftShift with 22. change datacenterIDShift with 17.
  change workerIDShift with 12.
  assert (Hsub : Int64.sub t twepoch = t - twepoch).
  { apply wrap64_small. unfold Int64.inRange, Int64.min, Int64.max. lia. }
  rewrite Hsub.
  rewrite (shl_field (datacenterID w) 17), (shl_field (workerID w) 12) by lia.
  rewrite (shl_small (t - twepoch) 22)
    by (try lia; unfold Int64.inRange, Int64.min, Int64.max; lia).
  apply lor_fields; assumption.
Qed.

(** reading the fields back from a packed value *)
Lemma decode_fields (m d w q : Z) :
  0 <= d <= 31 -> 0 <= w <= 31 -> 0 <= q <= 4095 ->
  let id := m * 2 ^ 22 + d * 2 ^ 17 + w * 2 ^ 12 + q in
  decodeTimestampDelta id = m /\ decodeDatacenterID id = d /\
  decodeWorkerID id = w /\ decodeSequence id = q.
Proof.
  intros Hd Hw Hq id.
  unfold decodeTimestampDelta, decodeDatacenterID, decodeWorkerID, decodeSequence.
  change 31 with (Z.ones 5). change 4095 with (Z.ones 12).
  rewrite !Z.land_ones, !Z.shiftr_div_pow2 by lia.
  subst id.
  change (2 ^ 22) with 4194304. change (2 ^ 17) with 131072.
  change (2 ^ 12) with 4096. change (2 ^ 5) with 32.
  repeat split; Z.to_euclidean_division_equations; lia.
Qed.

(** ** The clock readings *)

Lemma millis_exact (s : Z) :
  Int64.inRange s -> millis s = Z.quot s 1000000 /\ isMillis (millis s).
Proof.
  unfold Int64.inRange, Int64.min, Int64.max, isMillis, millis, Int64.div.
  intros H.
  assert (Hq : - 9223372036854 <= Z.quot s 1000000 <= 9223372036854)
    by (Z.to_euclidean_division_equations; lia).
  rewrite wrap64_small by (unfold Int64.inRange, Int64.min, Int64.max; lia).
  split; [reflexivity | exact Hq].
Qed.

(** ** The busy-wait *)

Lemma tilNextMillis_sound (l : Z) (c : Clock) (t : Z) (c' : Clock) :
  tilNextMillis l c = Some (t, c') ->
  exists polled s,
    c = polled ++ s :: c' /\
    Forall (fun x => millis x <= l) polled /\
    t = millis s /\ l < t.
Proof.
  revert t c'. induction c as [|s c IH]; intros t c' H; simpl in H.
  - discriminate.
  - destruct (millis s <=? l) eqn:E.
    + apply Z.leb_le in E.
      destruct (IH _ _ H) as (polled & s' & -> & Hp & Ht & Hl).
      exists (s :: polled), s'. repeat split; auto.
    + apply Z.leb_gt in E. inversion H; subst.
      exists [], s. repeat split; auto.
Qed.

Lemma tilNextMillis_complete (l : Z) (polled : list Z) (s : Z) (c' : Clock) :
  Forall (fun x => millis x <= l) polled -> l < millis s ->
  tilNextMillis l (polled ++ s :: c') = Some (millis s, c').
Proof.
  intros Hp Hs. induction Hp as [|x polled Hx Hp IH]; simpl.
  - apply Z.leb_gt in Hs. rewrite Hs. reflexivity.
  - apply Z.leb_le in Hx. rewrite Hx. exact IH.
Qed.

(** the wait ends as soon as the clock passes [l] *)
Lemma tilNextMillis_returns (l : Z) (c : Clock) :
  advancesPast l c -> exists t c', tilNextMillis l c = Some (t, c').
Proof.
  unfold advancesPast. induction c as [|s c IH]; intros H.
  - inversion H.
  - simpl. destruct (millis s <=? l) eqn:E.
    + apply Z.leb_le in E. inversion H; subst; [lia | auto].
    + eauto.
Qed.

(** ** One call *)

Lemma Next_unfold (w : worker) (s : Z) (c : Clock) :
  Next w (s :: c) =
  if millis s <? lastTimestamp w then
    Some ((0, Some (Errorf "Clock moved backwards.  Refusing to generate id for %d milliseconds"
                           (Int64.sub (lastTimestamp w) (millis s)))), w, c)
  else match advance w (millis s) c with
       | Some ((t, w1), c') =>
           Some ((composeID t (set_lastTimestamp w1 t), None),
                 set_lastTimestamp w1 t, c')
       | None => None
       end.
Proof.
  unfold Next, nowMillis, bind, UnixNano, ret.
  destruct (millis s <? lastTimestamp w); [reflexivity|].
  destruct (advance w (millis s) c) as [[[t w1] c']|]; reflexivity.
Qed.

Lemma Next_empty (w : worker) : Next w [] = None.
Proof. reflexivity. Qed.

(** what [advance] can return *)
Lemma advance_inv (w : worker) (ts : Z) (c : Clock) (t : Z) (w1 : worker) (c' : Clock) :
  advance w ts c = Some ((t, w1), c') ->
  (ts <> lastTimestamp w /\ t = ts /\ w1 = set_sequence w 0 /\ c' = c) \/
  (ts = lastTimestamp w /\
   Z.land (Int64.add (sequence w) 1) sequenceMask <> 0 /\ t = ts /\
   w1 = set_sequence w (Z.land (Int64.add (sequence w) 1) sequenceMask) /\ c' = c) \/
  (ts = lastTimestamp w /\
   Z.land (Int64.add (sequence w) 1) sequenceMask = 0 /\
   w1 = set_sequence w 0 /\
   tilNextMillis (lastTimestamp w) c = Some (t, c')).
Proof.
  unfold advance, ret. destruct (ts =? lastTimestamp w) eqn:E.
  - apply Z.eqb_eq in E. cbn [sequence set_sequence lastTimestamp].
    destruct (Z.land (Int64.add (sequence w) 1) sequenceMask =? 0) eqn:E0.
    + apply Z.eqb_eq in E0. intros H. right; right.
      destruct (tilNextMillis (lastTimestamp w) c) as [[t0 c0]|]; [|discriminate].
      inversion H; subst. rewrite E0. auto.
    + apply Z.eqb_neq in E0. intros H. inversion H; subst. right; left. auto.
  - apply Z.eqb_neq in E. intros H. inversion H; subst. left. auto.
Qed.

(** the masked increment is the increment modulo 4096 *)
Lemma masked_increment (q : Z) :
  Z.land (Int64.add q 1) sequenceMask = (q + 1) mod 4096.
Proof.
  change sequenceMask with (Z.ones 12). rewrite Z.land_ones by lia.
  unfold Int64.add. destruct (wrap64_multiple (q + 1)) as [k ->].
  change (2 ^ 64) with (2 ^ 52 * 2 ^ 12). rewrite Z.mul_assoc.
  rewrite Z.mod_add by lia. reflexivity.
Qed.

Lemma Next_success_inv (w : worker) (c : Clock) (id : Z) (w' : worker) (c' : Clock) :
  Next w c = Some ((id, None), w', c') ->
  exists s rest t w1,
    c = s :: rest /\ lastTimestamp w <= millis s /\
    advance w (millis s) rest = Some ((t, w1), c') /\
    w' = set_lastTimestamp w1 t /\ id = composeID t w' /\
    effectiveMillis w c = Some t.
Proof.
  destruct c as [|s rest]; [discriminate|].
  rewrite Next_unfold. unfold effectiveMillis, nowMillis, bind, UnixNano, ret.
  destruct (millis s <? lastTimestamp w) eqn:E; [discriminate|].
  apply Z.ltb_ge in E.
  destruct (advance w (millis s) rest) as [[[t w1] c1]|] eqn:Ea; [|discriminate].
  intros H. inversion H; subst.
  exists s, rest, t, w1. repeat split; auto.
Qed.

Lemma Next_error_inv (w : worker) (c : Clock) (v : Z) (e : error) (w' : worker) (c' : Clock) :
  Next w c = Some ((v, Some e), w', c') ->
  exists s, c = s :: c' /\ millis s < lastTimestamp w /\ v = 0 /\ w' = w.
Proof.
  destruct c as [|s rest]; [discriminate|].
  rewrite Next_unfold.
  destruct (millis s <? lastTimestamp w) eqn:E.
  - apply Z.ltb_lt in E. intros H. inversion H; subst. eauto.
  - destruct (advance w (millis s) rest) as [[[t w1] c1]|]; discriminate.
Qed.

(** a successful call moves the key strictly forward and keeps the identity *)
Lemma Next_success_step (w : worker) (c : Clock) (id : Z) (w' : worker) (c' : Clock) :
  wfID w -> Next w c = Some ((id, None), w', c') ->
  wfID w' /\ workerID w' = workerID w /\ datacenterID w' = datacenterID w /\
  keyLt (key w) (key w') /\ id = composeID (lastTimestamp w') w'.
Proof.
  intros (Hw & Hd & Hs) H.
  destruct (Next_success_inv _ _ _ _ _ H) as (s & rest & t & w1 & -> & Hle & Ha & -> & -> & _).
  unfold wfID, keyLt, key.
  destruct (advance_inv _ _ _ _ _ _ Ha)
    as [(Hne & -> & -> & _) | [(He & Hnz & -> & -> & _) | (He & Hz & -> & Ht)]];
    cbn [set_lastTimestamp set_sequence workerID datacenterID sequence lastTimestamp fst snd].
  - repeat split; auto; try lia.
  - rewrite masked_increment in *.
    pose proof (Z.mod_pos_bound (sequence w + 1) 4096 ltac:(lia)) as Hb.
    assert (Hq : (sequence w + 1) mod 4096 = sequence w + 1).
    { destruct (Z.eq_dec (sequence w) 4095) as [E|E].
      - rewrite E in Hnz. vm_compute in Hnz. congruence.
      - apply Z.mod_small. lia. }
    repeat split; auto; try lia.
  - destruct (tilNextMillis_sound _ _ _ _ Ht) as (polled & s' & _ & _ & _ & Hlt).
    repeat split; auto; try lia.
Qed.

(** ** The three ways a call succeeds *)

Lemma Next_reset (w : worker) (s : Z) (c : Clock) :
  lastTimestamp w < millis s ->
  let w' := mkWorker (workerID w) (datacenterID w) 0 (millis s) in
  Next w (s :: c) = Some ((composeID (millis s) w', None), w', c).
Proof.
  intros Hlt w'. rewrite Next_unfold.
  assert (E1 : (millis s <? lastTimestamp w) = false) by lia.
  assert (E2 : (millis s =? lastTimestamp w) = false) by lia.
  rewrite E1. unfold advance. rewrite E2. reflexivity.
Qed.

Lemma Next_increment (w : worker) (s : Z) (c : Clock) :
  millis s = lastTimestamp w ->
  Z.land (Int64.add (sequence w) 1) sequenceMask <> 0 ->
  let w' := mkWorker (workerID w) (datacenterID w)
              (Z.land (Int64.add (sequence w) 1) sequenceMask) (millis s) in
  Next w (s :: c) = Some ((composeID (millis s) w', None), w', c).
Proof.
  intros He Hnz w'. rewrite Next_unfold.
  assert (E1 : (millis s <? lastTimestamp w) = false) by lia.
  assert (E2 : (millis s =? lastTimestamp w) = true) by lia.
  apply Z.eqb_neq in Hnz.
  rewrite E1. unfold advance. rewrite E2. cbn [sequence set_sequence].
  rewrite Hnz. reflexivity.
Qed.

Lemma Next_wait (w : worker) (s : Z) (polled : list Z) (s' : Z) (c' : Clock) :
  millis s = lastTimestamp w ->
  Z.land (Int64.add (sequence w) 1) sequenceMask = 0 ->
  Forall (fun x => millis x <= lastTimestamp w) polled ->
  lastTimestamp w < millis s' ->
  let w' := mkWorker (workerID w) (datacenterID w) 0 (millis s') in
  Next w (s :: polled ++ s' :: c') = Some ((composeID (millis s') w', None), w', c').
Proof.
  intros He Hz Hp Hs' w'. rewrite Next_unfold.
  assert (E1 : (millis s <? lastTimestamp w) = false) by lia.
  assert (E2 : (millis s =? lastTimestamp w) = true) by lia.
  rewrite E1. unfold advance. rewrite E2. cbn [sequence set_sequence lastTimestamp].
  rewrite Hz. cbn [Z.eqb].
  rewrite (tilNextMillis_complete _ _ _ _ Hp Hs'). reflexivity.
Qed.

(** a call whose sample does not regress returns, provided the clock
    advances when the call has to wait for it *)
Lemma Next_returns (w : worker) (s : Z) (c : Clock) :
  lastTimestamp w <= millis s ->
  (exhausted w (millis s) -> advancesPast (lastTimestamp w) c) ->
  exists id w' c', Next w (s :: c) = Some ((id, None), w', c').
Proof.
  intros Hle Hwait. rewrite Next_unfold.
  apply Z.ltb_ge in Hle. rewrite Hle.
  unfold advance, ret. destruct (millis s =? lastTimestamp w) eqn:E; [|eauto].
  apply Z.eqb_eq in E. cbn [sequence set_sequence lastTimestamp].
  destruct (Z.land (Int64.add (sequence w) 1) sequenceMask =? 0) eqn:E0; [|eauto].
  apply Z.eqb_eq in E0.
  destruct (tilNextMillis_returns _ _ (Hwait (conj E E0))) as (t & c' & ->).
  eauto.
Qed.

(** a call that had to wait ends in a later millisecond *)
Lemma Next_after_wait (w : worker) (s : Z) (c : Clock) (r : Ret) (w' : worker) (c' : Clock) :
  exhausted w (millis s) ->
  Next w (s :: c) = Some ((r, w'), c') ->
  snd r = None /\ lastTimestamp w < lastTimestamp w' /\ sequence w' = 0 /\
  effectiveMillis w (s :: c) = Some (lastTimestamp w').
Proof.
  intros [He Hz] H. destruct r as [v [e|]].
  - destruct (Next_error_inv _ _ _ _ _ _ H) as (s0 & Hc & Hlt & _).
    inversion Hc; subst. lia.
  - destruct (Next_success_inv _ _ _ _ _ H)
      as (s0 & rest & t & w1 & Hc & _ & Ha & -> & _ & Heff).
    inversion Hc; subst s0 rest.
    destruct (advance_inv _ _ _ _ _ _ Ha)
      as [(Hne & _) | [(_ & Hnz & _) | (_ & _ & -> & Ht)]]; try contradiction.
    destruct (tilNextMillis_sound _ _ _ _ Ht) as (_ & _ & _ & _ & _ & Hlt).
    cbn. auto.
Qed.

Lemma Next_identity (w : worker) (c : Clock) (r : Ret) (w' : worker) (c' : Clock) :
  Next w c = Some ((r, w'), c') ->
  workerID w' = workerID w /\ datacenterID w' = datacenterID w.
Proof.
  destruct r as [v [e|]]; intros H.
  - destruct (Next_error_inv _ _ _ _ _ _ H) as (s & _ & _ & _ & ->). auto.
  - destruct (Next_success_inv _ _ _ _ _ H) as (s & rest & t & w1 & _ & _ & Ha & -> & _).
    destruct (advance_inv _ _ _ _ _ _ Ha)
      as [(_ & _ & -> & _) | [(_ & _ & _ & -> & _) | (_ & _ & -> & _)]]; auto.
Qed.

Lemma Next_wfID (w : worker) (c : Clock) (r : Ret) (w' : worker) (c' : Clock) :
  wfID w -> Next w c = Some ((r, w'), c') -> wfID w'.
Proof.
  destruct r as [v [e|]]; intros Hw H.
  - destruct (Next_error_inv _ _ _ _ _ _ H) as (s & _ & _ & _ & ->). exact Hw.
  - apply (Next_success_step _ _ _ _ _ Hw H).
Qed.

Lemma generatorOf_wfID (wid dcid : Z) (w : worker) :
  0 <= wid -> 0 <= dcid -> generatorOf wid dcid w ->
  wfID w /\ workerID w = wid /\ datacenterID w = dcid.
Proof.
  intros Hwid Hdcid G. induction G as [w H | w c r w' c' G IH _ H].
  - unfold NewWorker in H. change maxWorkerID with 31 in H.
    change maxDatacenterID with 31 in H.
    destruct (wid >? 31) eqn:E1; [discriminate|].
    destruct (dcid >? 31) eqn:E2; [discriminate|].
    inversion H; subst. unfold wfID. cbn. lia.
  - destruct IH as (Hwf & <- & <-).
    destruct (Next_identity _ _ _ _ _ H) as [-> ->].
    split; [exact (Next_wfID _ _ _ _ _ Hwf H) | auto].
Qed.

(** the effective millisecond of a call is the millisecond of a reading *)
Lemma Next_lastTimestamp_sample
  (w : worker) (c : Clock) (id : Z) (w' : worker) (c' : Clock) :
  Next w c = Some ((id, None), w', c') ->
  exists s, In s c /\ lastTimestamp w' = millis s.
Proof.
  intros H.
  destruct (Next_success_inv _ _ _ _ _ H)
    as (s & rest & t & w1 & -> & _ & Ha & -> & _).
  cbn [set_lastTimestamp lastTimestamp].
  destruct (advance_inv _ _ _ _ _ _ Ha)
    as [(_ & -> & _) | [(_ & _ & -> & _) | (_ & _ & _ & Ht)]].
  - exists s. split; [left; reflexivity | reflexivity].
  - exists s. split; [left; reflexivity | reflexivity].
  - destruct (tilNextMillis_sound _ _ _ _ Ht) as (polled & s' & -> & _ & -> & _).
    exists s'. split; [|reflexivity].
    right. apply in_or_app. right. left. reflexivity.
Qed.

Lemma generatorOf_isMillis (wid dcid : Z) (w : worker) :
  generatorOf wid dcid w -> isMillis (lastTimestamp w).
Proof.
  intros G. induction G as [w H | w c r w' c' G IH Hc H].
  - unfold NewWorker in H.
    destruct (wid >? maxWorkerID); [discriminate|].
    destruct (dcid >? maxDatacenterID); [discriminate|].
    inversion H; subst. unfold isMillis. cbn. lia.
  - destruct r as [v [e|]].
    + destruct (Next_error_inv _ _ _ _ _ _ H) as (s & _ & _ & _ & ->). exact IH.
    + destruct (Next_lastTimestamp_sample _ _ _ _ _ H) as (s & Hin & ->).
      rewrite Forall_forall in Hc. apply millis_exact. auto.
Qed.

(** ** Construction *)

(** C6: for identities both in [0, 31], [NewWorker] returns a generator
    holding them, whose sequence and lastTimestamp are zero; when either
    argument is 32 or more it ends in [log.Fatalf] (the failure is reported)
    and returns no generator. *)
Theorem NewWorker_range_check (wid dcid : Z) :
  (0 <= wid <= 31 -> 0 <= dcid <= 31 ->
   exists w, NewWorker wid dcid = Returned w /\
             workerID w = wid /\ datacenterID w = dcid /\
             sequence w = 0 /\ lastTimestamp w = 0) /\
  (32 <= wid \/ 32 <= dcid ->
   exists format arg, NewWorker wid dcid = Fatalf format arg).
Proof.
  unfold NewWorker. change maxWorkerID with 31. change maxDatacenterID with 31.
  split.
  - intros Hw Hd.
    assert (E1 : (wid >? 31) = false) by lia.
    assert (E2 : (dcid >? 31) = false) by lia.
    rewrite E1, E2. eexists. repeat split.
  - intros H. destruct (wid >? 31) eqn:E1; [eauto|].
    assert (E2 : (dcid >? 31) = true) by lia.
    rewrite E2. eauto.
Qed.

Lemma NewWorker_range_check_witness :
  (exists w, NewWorker 31 0 = Returned w /\
             workerID w = 31 /\ datacenterID w = 0 /\
             sequence w = 0 /\ lastTimestamp w = 0) /\
  (exists format arg, NewWorker 7 32 = Fatalf format arg).
Proof.
  split.
  - apply (proj1 (NewWorker_range_check 31 0)); lia.
  - apply (proj2 (NewWorker_range_check 7 32)); lia.
Defined.

(** ** The identifier of one call *)

(** C2: the identifier of a successful call is
    [((t - 1546272000000) << 22) | (datacenterID << 17) | (workerID << 12) | sequence]
    in int64 arithmetic, [t] being the effective millisecond of the call;
    within the lifetime of the scheme the same holds with exact shifts. *)
Theorem Next_identifier_layout
  (w : worker) (c : Clock) (id : Z) (w' : worker) (c' : Clock) :
  Next w c = Some ((id, None), w', c') ->
  exists t,
    effectiveMillis w c = Some t /\
    id = Z.lor (Z.lor (Z.lor (Int64.shl (Int64.sub t 1546272000000) 22)
                             (Int64.shl (datacenterID w) 17))
                      (Int64.shl (workerID w) 12))
               (sequence w') /\
    (wfID w -> inLifetime t ->
     id = Z.lor (Z.lor (Z.lor (Z.shiftl (t - 1546272000000) 22)
                              (Z.shiftl (datacenterID w) 17))
                       (Z.shiftl (workerID w) 12))
                (sequence w')).
Proof.
  intros H.
  destruct (Next_identity _ _ _ _ _ H) as [Ew Ed].
  pose proof (Next_success_inv _ _ _ _ _ H)
    as (s & rest & t & w1 & -> & Hle & Ha & Hw' & Hid & Heff).
  exists t. split; [exact Heff|]. split.
  - rewrite Hid, <- Ew, <- Ed. reflexivity.
  - intros Hwf Hlife.
    destruct (Next_success_step _ _ _ _ _ Hwf H) as (Hwf' & _ & _ & _ & _).
    rewrite Hid, (composeID_exact t w' Hwf' Hlife).
    rewrite !Z.shiftl_mul_pow2 by lia.
    destruct Hwf' as (? & ? & ?).
    rewrite <- Ew, <- Ed. symmetry. apply lor_fields; assumption.
Qed.

Lemma Next_identifier_layout_witness :
  exists t,
    effectiveMillis (mkWorker 3 5 7 1546272000100) [1546272000100000000] = Some t /\
    Z.shiftl 100 22 + 5 * 2 ^ 17 + 3 * 2 ^ 12 + 8 =
      Z.lor (Z.lor (Z.lor (Int64.shl (Int64.sub t 1546272000000) 22)
                          (Int64.shl 5 17))
                   (Int64.shl 3 12))
            8 /\
    (wfID (mkWorker 3 5 7 1546272000100) -> inLifetime t ->
     Z.shiftl 100 22 + 5 * 2 ^ 17 + 3 * 2 ^ 12 + 8 =
       Z.lor (Z.lor (Z.lor (Z.shiftl (t - 1546272000000) 22) (Z.shiftl 5 17))
                    (Z.shiftl 3 12))
             8).
Proof.
  apply (Next_identifier_layout (mkWorker 3 5 7 1546272000100)
           [1546272000100000000] _ (mkWorker 3 5 8 1546272000100) []).
  vm_compute. reflexivity.
Defined.

(** C5: when the sampled millisecond is strictly greater than the stored
    lastTimestamp the sequence is reset to 0; and in every successful call
    the effective millisecond is what lastTimestamp holds afterwards, the
    identifier being composed from that stored state. *)
Theorem Next_resets_and_stores
  (w : worker) (c : Clock) (id : Z) (w' : worker) (c' : Clock) :
  Next w c = Some ((id, None), w', c') ->
  exists t,
    effectiveMillis w c = Some t /\
    lastTimestamp w' = t /\
    id = composeID (lastTimestamp w') w' /\
    (forall s rest, c = s :: rest -> lastTimestamp w < millis s ->
                    sequence w' = 0 /\ t = millis s /\ c' = rest).
Proof.
  intros H.
  destruct (Next_success_inv _ _ _ _ _ H)
    as (s & rest & t & w1 & -> & Hle & Ha & -> & -> & Heff).
  exists t. cbn [set_lastTimestamp lastTimestamp].
  split; [exact Heff|]. split; [reflexivity|]. split; [reflexivity|].
  intros s0 rest0 Hc Hlt. inversion Hc; subst s0 rest0.
  destruct (advance_inv _ _ _ _ _ _ Ha)
    as [(_ & -> & -> & ->) | [(He & _) | (He & _)]]; try lia.
  cbn. auto.
Qed.

Lemma Next_resets_and_stores_witness :
  exists t,
    effectiveMillis (mkWorker 3 5 7 1546272000100) [1546272000101000000] = Some t /\
    lastTimestamp (mkWorker 3 5 0 1546272000101) = t /\
    424292352 = composeID (lastTimestamp (mkWorker 3 5 0 1546272000101))
                          (mkWorker 3 5 0 1546272000101) /\
    (forall s rest, [1546272000101000000] = s :: rest ->
                    lastTimestamp (mkWorker 3 5 7 1546272000100) < millis s ->
                    sequence (mkWorker 3 5 0 1546272000101) = 0 /\
                    t = millis s /\ [] = rest).
Proof.
  apply (Next_resets_and_stores (mkWorker 3 5 7 1546272000100)
           [1546272000101000000] 424292352 (mkWorker 3 5 0 1546272000101) []).
  vm_compute. reflexivity.
Defined.

(** C10: whatever a call returns, an identifier or the clock error, it
    leaves workerID and datacenterID as they were: the state after the call
    differs from the state before in sequence and lastTimestamp only. *)
Theorem Next_keeps_identity
  (w : worker) (c : Clock) (r : Ret) (w' : worker) (c' : Clock) :
  Next w c = Some ((r, w'), c') ->
  workerID w' = workerID w /\ datacenterID w' = datacenterID w /\
  w' = mkWorker (workerID w) (datacenterID w) (sequence w') (lastTimestamp w').
Proof.
  intros H. destruct (Next_identity _ _ _ _ _ H) as [Ew Ed].
  repeat split; auto. rewrite <- Ew, <- Ed. destruct w'; reflexivity.
Qed.

Lemma Next_keeps_identity_witness :
  workerID (mkWorker 3 5 7 1546272000100) = workerID (mkWorker 3 5 7 1546272000100) /\
  datacenterID (mkWorker 3 5 7 1546272000100) = datacenterID (mkWorker 3 5 7 1546272000100) /\
  mkWorker 3 5 7 1546272000100 =
    mkWorker (workerID (mkWorker 3 5 7 1546272000100))
             (datacenterID (mkWorker 3 5 7 1546272000100))
             (sequence (mkWorker 3 5 7 1546272000100))
             (lastTimestamp (mkWorker 3 5 7 1546272000100)).
Proof.
  apply (Next_keeps_identity (mkWorker 3 5 7 1546272000100)
           [1546272000050000000]
           (0, Some (Errorf "Clock moved backwards.  Refusing to generate id for %d milliseconds" 50))
           (mkWorker 3 5 7 1546272000100) []).
  vm_compute. reflexivity.
Defined.

(** ** Clock regression *)

(** C3: a call whose sampled millisecond is strictly less than the stored
    lastTimestamp returns the zero value with an error carrying
    [lastTimestamp - sampled], and leaves the generator as it was;
    a call whose sample is not less returns an identifier and no error as
    soon as the busy-wait, if there is one, sees the clock advance; and a
    call returns an error in no other case. *)
Theorem Next_fails_only_on_clock_regression (w : worker) (s : Z) (c : Clock) :
  Int64.inRange s -> isMillis (lastTimestamp w) ->
  (millis s < lastTimestamp w ->
   exists format,
     Next w (s :: c) =
     Some ((0, Some (Errorf format (lastTimestamp w - millis s))), w, c)) /\
  (lastTimestamp w <= millis s ->
   (exhausted w (millis s) -> advancesPast (lastTimestamp w) c) ->
   exists id w' c', Next w (s :: c) = Some ((id, None), w', c')) /\
  (forall v e w' c',
     Next w (s :: c) = Some ((v, Some e), w', c') ->
     millis s < lastTimestamp w /\ v = 0 /\ w' = w).
Proof.
  intros Hs Hl. destruct (millis_exact s Hs) as [_ Hm].
  unfold isMillis in *. split; [|split].
  - intros Hlt. rewrite Next_unfold. apply Z.ltb_lt in Hlt. rewrite Hlt.
    eexists. unfold Int64.sub. rewrite wrap64_small; [reflexivity|].
    unfold Int64.inRange, Int64.min, Int64.max. lia.
  - apply Next_returns.
  - intros v e w' c' H.
    destruct (Next_error_inv _ _ _ _ _ _ H) as (s' & Hc & Hlt & Hv & Hw).
    inversion Hc; subst. auto.
Qed.

(** the clock jumps back by 50 ms between two calls *)
Lemma Next_fails_only_on_clock_regression_witness :
  (millis 1546272000050000000 < lastTimestamp (mkWorker 3 5 7 1546272000100) ->
   exists format,
     Next (mkWorker 3 5 7 1546272000100) [1546272000050000000] =
     Some ((0, Some (Errorf format
                       (lastTimestamp (mkWorker 3 5 7 1546272000100)
                        - millis 1546272000050000000))),
           mkWorker 3 5 7 1546272000100, [])) /\
  (lastTimestamp (mkWorker 3 5 7 1546272000100) <= millis 1546272000050000000 ->
   (exhausted (mkWorker 3 5 7 1546272000100) (millis 1546272000050000000) ->
    advancesPast (lastTimestamp (mkWorker 3 5 7 1546272000100)) []) ->
   exists id w' c',
     Next (mkWorker 3 5 7 1546272000100) [1546272000050000000] =
     Some ((id, None), w', c')) /\
  (forall v e w' c',
     Next (mkWorker 3 5 7 1546272000100) [1546272000050000000] =
     Some ((v, Some e), w', c') ->
     millis 1546272000050000000 < lastTimestamp (mkWorker 3 5 7 1546272000100) /\
     v = 0 /\ w' = mkWorker 3 5 7 1546272000100).
Proof.
  apply (Next_fails_only_on_clock_regression
           (mkWorker 3 5 7 1546272000100) 1546272000050000000 []).
  - unfold Int64.inRange, Int64.min, Int64.max. lia.
  - unfold isMillis. simpl. lia.
Defined.

(** ** Decoding *)

(** C7: every identifier returned by a generator that [NewWorker] built
    from identities in [0, 31] carries these identities: bits 12-16 decode
    to the workerID and bits 17-21 to the datacenterID. *)
Theorem Next_identifier_decodes_identity
  (wid dcid : Z) (w : worker) (c : Clock) (id : Z) (w' : worker) (c' : Clock) :
  0 <= wid <= 31 -> 0 <= dcid <= 31 ->
  generatorOf wid dcid w ->
  Next w c = Some ((id, None), w', c') ->
  decodeWorkerID id = wid /\ decodeDatacenterID id = dcid /\
  decodeSequence id = sequence w'.
Proof.
  intros Hwid Hdcid G H.
  destruct (generatorOf_wfID wid dcid w ltac:(lia) ltac:(lia) G) as (Hwf & Ew & Ed).
  destruct (Next_success_step _ _ _ _ _ Hwf H) as (Hwf' & Ew' & Ed' & _ & ->).
  destruct (composeID_fields (lastTimestamp w') w' Hwf') as [m ->].
  destruct Hwf' as (? & ? & ?).
  destruct (decode_fields m (datacenterID w') (workerID w') (sequence w'))
    as (_ & Hd & Hw & Hq); try assumption.
  rewrite Hd, Hw, Hq. repeat split; congruence.
Qed.

Lemma Next_identifier_decodes_identity_witness :
  decodeWorkerID 4097 = 1 /\ decodeDatacenterID 4097 = 0 /\
  decodeSequence 4097 = sequence (mkWorker 1 0 1 1546272000000).
Proof.
  apply (Next_identifier_decodes_identity 1 0 (mkWorker 1 0 0 1546272000000)
           [1546272000000999999] 4097 (mkWorker 1 0 1 1546272000000) []);
    try lia.
  - apply (gen_next 1 0 (mkWorker 1 0 0 0) [1546272000000000000]
             (4096, None) _ []).
    + apply gen_new. reflexivity.
    + repeat constructor; vm_compute; discriminate.
    + vm_compute. reflexivity.
  - vm_compute. reflexivity.
Defined.

(** ** Distinct generators *)

(** C8: two generators whose (workerID, datacenterID) pairs differ return
    distinct identifiers when they issue at the same effective millisecond
    with the same sequence value. *)
Theorem distinct_generators_distinct_identifiers
  (w1 w2 : worker) (c1 c2 : Clock) (id1 id2 : Z) (w1' w2' : worker) (c1' c2' : Clock) :
  wfID w1 -> wfID w2 ->
  (workerID w1, datacenterID w1) <> (workerID w2, datacenterID w2) ->
  Next w1 c1 = Some ((id1, None), w1', c1') ->
  Next w2 c2 = Some ((id2, None), w2', c2') ->
  lastTimestamp w1' = lastTimestamp w2' -> sequence w1' = sequence w2' ->
  id1 <> id2.
Proof.
  intros Hwf1 Hwf2 Hne H1 H2 _ _ Heq.
  destruct (Next_success_step _ _ _ _ _ Hwf1 H1) as (Hwf1' & Ew1 & Ed1 & _ & E1).
  destruct (Next_success_step _ _ _ _ _ Hwf2 H2) as (Hwf2' & Ew2 & Ed2 & _ & E2).
  destruct (composeID_fields (lastTimestamp w1') w1' Hwf1') as [m1 F1].
  destruct (composeID_fields (lastTimestamp w2') w2' Hwf2') as [m2 F2].
  destruct Hwf1' as (? & ? & ?). destruct Hwf2' as (? & ? & ?).
  destruct (decode_fields m1 (datacenterID w1') (workerID w1') (sequence w1'))
    as (_ & D1 & W1 & _); try assumption.
  destruct (decode_fields m2 (datacenterID w2') (workerID w2') (sequence w2'))
    as (_ & D2 & W2 & _); try assumption.
  rewrite <- F1, <- E1 in D1, W1. rewrite <- F2, <- E2 in D2, W2.
  apply Hne. f_equal; congruence.
Qed.

Lemma distinct_generators_distinct_identifiers_witness : 419434496 <> 419561472.
Proof.
  apply (distinct_generators_distinct_identifiers
           (mkWorker 1 0 0 0) (mkWorker 0 1 0 0)
           [1546272000100000000] [1546272000100000000]
           419434496 419561472
           (mkWorker 1 0 0 1546272000100) (mkWorker 0 1 0 1546272000100) [] []);
    try (unfold wfID; simpl; lia); try (vm_compute; reflexivity).
  simpl. intros E. discriminate E.
Defined.

(** ** The scenario 100 ms after the epoch *)

(** C9: a generator with workerID 0 and datacenterID 0 whose call has the
    effective millisecond 1546272000100 and the sequence 0 returns
    [100 << 22]: the timestamp delta decodes to 100 and the worker,
    datacenter and sequence fields to 0. *)
Theorem Next_100ms_after_epoch
  (w : worker) (c : Clock) (id : Z) (w' : worker) (c' : Clock) :
  workerID w = 0 -> datacenterID w = 0 ->
  Next w c = Some ((id, None), w', c') ->
  effectiveMillis w c = Some 1546272000100 -> sequence w' = 0 ->
  id = Z.shiftl 100 22 /\
  decodeTimestampDelta id = 100 /\ decodeWorkerID id = 0 /\
  decodeDatacenterID id = 0 /\ decodeSequence id = 0.
Proof.
  intros Ew Ed H Heff Hq.
  destruct (Next_identity _ _ _ _ _ H) as [Ew' Ed'].
  destruct (Next_success_inv _ _ _ _ _ H)
    as (s & rest & t & w1 & _ & _ & _ & Hw' & Hid & Heff').
  assert (Ht : t = 1546272000100) by congruence.
  assert (Hl : lastTimestamp w' = t) by (rewrite Hw'; reflexivity).
  destruct w' as [wid dcid q l]. cbn in Ew', Ed', Hq, Hl.
  subst. rewrite Ew, Ed. vm_compute. repeat split.
Qed.

Lemma Next_100ms_after_epoch_witness :
  419430400 = Z.shiftl 100 22 /\
  decodeTimestampDelta 419430400 = 100 /\ decodeWorkerID 419430400 = 0 /\
  decodeDatacenterID 419430400 = 0 /\ decodeSequence 419430400 = 0.
Proof.
  apply (Next_100ms_after_epoch DefaultWorker [1546272000100000000] 419430400
           (mkWorker 0 0 0 1546272000100) []);
    vm_compute; reflexivity.
Defined.

(** ** Runs of sequential calls *)

Lemma NextN_unfold (n : nat) (w : worker) (c : Clock) :
  NextN (S n) w c =
  match Next w c with
  | Some (r, c1) =>
      match NextN n (snd r) c1 with
      | Some (rs, c2) => Some (r :: rs, c2)
      | None => None
      end
  | None => None
  end.
Proof.
  cbn [NextN]. unfold bind, ret.
  destruct (Next w c) as [[r c1]|]; [|reflexivity].
  destruct (NextN n (snd r) c1) as [[rs c2]|]; reflexivity.
Qed.

Lemma NextN_step_inv (n : nat) (w : worker) (c : Clock)
  (tr : list (Ret * worker)) (c' : Clock) :
  NextN (S n) w c = Some (tr, c') ->
  exists r c1 rs,
    Next w c = Some (r, c1) /\ NextN n (snd r) c1 = Some (rs, c') /\ tr = r :: rs.
Proof.
  rewrite NextN_unfold.
  destruct (Next w c) as [[r c1]|]; [|discriminate].
  destruct (NextN n (snd r) c1) as [[rs c2]|] eqn:E; [|discriminate].
  intros H. inversion H; subst. exists r, c1, rs. auto.
Qed.

Lemma NextN_length (n : nat) :
  forall w c tr c', NextN n w c = Some (tr, c') -> List.length tr = n.
Proof.
  induction n as [|n IH]; intros w c tr c' H.
  - inversion H. reflexivity.
  - destruct (NextN_step_inv _ _ _ _ _ H) as (r & c1 & rs & _ & Hn & ->).
    simpl. f_equal. eauto.
Qed.

Lemma succeededb_spec (r : Ret * worker) : succeededb r = true <-> succeeded r.
Proof.
  unfold succeededb, succeeded. destruct (snd (fst r)); split; congruence.
Qed.

Lemma keyLt_trans (a b c : Z * Z) : keyLt a b -> keyLt b c -> keyLt a c.
Proof. unfold keyLt. lia. Qed.

Lemma keyLt_irrefl (a : Z * Z) : ~ keyLt a a.
Proof. unfold keyLt. lia. Qed.

Lemma issuedAfter_earlier (w w1 : worker) (r : Ret * worker) :
  workerID w1 = workerID w -> datacenterID w1 = datacenterID w ->
  key w = key w1 \/ keyLt (key w) (key w1) ->
  issuedAfter w1 r -> issuedAfter w r.
Proof.
  unfold issuedAfter. intros Ew Ed Hk (Hwf & Ew1 & Ed1 & Hlt & Hid).
  repeat split; try congruence; try apply Hwf.
  destruct Hk as [->|Hk]; [exact Hlt | exact (keyLt_trans _ _ _ Hk Hlt)].
Qed.

(** the identifiers a run issues come with strictly increasing keys *)
Lemma NextN_issued (n : nat) :
  forall w c tr c',
    wfID w -> NextN n w c = Some (tr, c') ->
    Forall (issuedAfter w) (issued tr) /\
    StronglySorted (fun a b => keyLt (key (snd a)) (key (snd b))) (issued tr).
Proof.
  induction n as [|n IH]; intros w c tr c' Hwf H.
  - inversion H. split; constructor.
  - destruct (NextN_step_inv _ _ _ _ _ H) as ([[v e] w1] & c1 & rs & Hn & Hr & ->).
    cbn [snd] in Hr.
    pose proof (Next_wfID _ _ _ _ _ Hwf Hn) as Hwf1.
    destruct (Next_identity _ _ _ _ _ Hn) as [Ew Ed].
    destruct (IH _ _ _ _ Hwf1 Hr) as [Hall Hsorted].
    unfold issued in *. cbn [filter]. unfold succeededb at 1 3. cbn [fst snd].
    destruct e as [e|].
    + destruct (Next_error_inv _ _ _ _ _ _ Hn) as (s & _ & _ & _ & ->).
      split; assumption.
    + destruct (Next_success_step _ _ _ _ _ Hwf Hn) as (_ & _ & _ & Hlt & Hid).
      split.
      * constructor.
        -- unfold issuedAfter. cbn [fst snd idOf]. auto.
        -- eapply Forall_impl; [|exact Hall].
           intros r. apply issuedAfter_earlier; auto.
      * constructor; [exact Hsorted|].
        eapply Forall_impl; [|exact Hall].
        intros r Hr'. apply Hr'.
Qed.

(** a call that does not see the clock regress returns an identifier *)
Lemma nonRegressing_succeeded (n : nat) :
  forall w c tr c',
    nonRegressing n w c -> NextN n w c = Some (tr, c') -> Forall succeeded tr.
Proof.
  induction n as [|n IH]; intros w c tr c' Hnr H.
  - inversion H. constructor.
  - destruct (NextN_step_inv _ _ _ _ _ H) as ([[v e] w1] & c1 & rs & Hn & Hr & ->).
    destruct c as [|s rest]; [discriminate|].
    cbn [nonRegressing] in Hnr. rewrite Hn in Hnr. destruct Hnr as [Hle Hnr].
    constructor; [|exact (IH _ _ _ _ Hnr Hr)].
    destruct e as [e|]; [|reflexivity].
    destruct (Next_error_inv _ _ _ _ _ _ Hn) as (s' & Hc & Hlt & _).
    inversion Hc; subst. lia.
Qed.

Lemma issued_all (tr : list (Ret * worker)) : Forall succeeded tr -> issued tr = tr.
Proof.
  unfold issued. induction 1 as [|r tr Hr _ IH]; [reflexivity|].
  cbn [filter]. apply succeededb_spec in Hr. rewrite Hr, IH. reflexivity.
Qed.

(** within the lifetime, a greater key composes a greater identifier *)
Lemma issued_id_lt (w : worker) (a b : Ret * worker) :
  issuedAfter w a -> issuedAfter w b ->
  inLifetime (lastTimestamp (snd a)) -> inLifetime (lastTimestamp (snd b)) ->
  keyLt (key (snd a)) (key (snd b)) -> idOf a < idOf b.
Proof.
  intros (Hwa & Ewa & Eda & _ & ->) (Hwb & Ewb & Edb & _ & ->) La Lb Hk.
  rewrite (composeID_exact _ _ Hwa La), (composeID_exact _ _ Hwb Lb).
  rewrite Ewa, Eda, Ewb, Edb.
  destruct Hwa as (_ & _ & Hqa). destruct Hwb as (_ & _ & Hqb).
  unfold keyLt, key in Hk. cbn [fst snd] in Hk.
  change (2 ^ 22) with 4194304. lia.
Qed.

Lemma sorted_ids (w : worker) (l : list (Ret * worker)) :
  Forall (issuedAfter w) l ->
  Forall (fun r => inLifetime (lastTimestamp (snd r))) l ->
  StronglySorted (fun a b => keyLt (key (snd a)) (key (snd b))) l ->
  StronglySorted Z.lt (map idOf l).
Proof.
  intros Hall Hlife Hs. induction Hs as [|a l Hs IH Ha]; [constructor|].
  inversion Hall as [|? ? Ia Il]; subst. inversion Hlife as [|? ? La Ll]; subst.
  cbn [map]. constructor; [auto|].
  apply Forall_map. rewrite Forall_forall in *.
  intros b Hb. apply (issued_id_lt w); auto.
Qed.

(** ** Calls within one millisecond *)

Lemma last_cons {A} (a d : A) (l : list A) : last (a :: l) d = last l a.
Proof.
  revert a d. induction l as [|b l IH]; intros a d; [reflexivity|].
  change (last (a :: b :: l) d) with (last (b :: l) d).
  rewrite (IH b d), (IH b a). reflexivity.
Qed.

Lemma stateAfter_cons (w : worker) (r : Ret * worker) (tr : list (Ret * worker)) :
  stateAfter w (r :: tr) = stateAfter (snd r) tr.
Proof. unfold stateAfter. cbn [map]. apply last_cons. Qed.

(** further calls in the millisecond of the last identifier, while the
    sequence has room *)
Lemma same_millisecond_run (ss : list Z) :
  forall (w : worker) (c : Clock),
    Forall (fun s => millis s = lastTimestamp w) ss ->
    0 <= sequence w -> sequence w + Z.of_nat (List.length ss) <= 4095 ->
    exists tr,
      NextN (List.length ss) w (ss ++ c) = Some (tr, c) /\
      Forall succeeded tr /\
      map (fun r => key (snd r)) tr =
        map (fun k => (lastTimestamp w, sequence w + Z.of_nat k))
            (seq 1 (List.length ss)) /\
      stateAfter w tr =
        mkWorker (workerID w) (datacenterID w)
                 (sequence w + Z.of_nat (List.length ss)) (lastTimestamp w).
Proof.
  induction ss as [|s ss IH]; intros w c Hss Hq0 Hq.
  - exists []. cbn. repeat split; [constructor|].
    destruct w; cbn. f_equal. lia.
  - inversion Hss as [|? ? Hs Hss']; subst.
    cbn [List.length] in *.
    assert (Hinc : Z.land (Int64.add (sequence w) 1) sequenceMask = sequence w + 1).
    { rewrite masked_increment. apply Z.mod_small. lia. }
    pose proof (Next_increment w s (ss ++ c) Hs ltac:(lia)) as Hn.
    cbv zeta in Hn. rewrite Hinc, Hs in Hn.
    set (w1 := mkWorker (workerID w) (datacenterID w) (sequence w + 1) (lastTimestamp w)) in *.
    destruct (IH w1 c) as (tr & Hr & Hok & Hkeys & Hlast); cbn [w1 lastTimestamp sequence];
      [exact Hss' | lia | lia |].
    exists (((composeID (lastTimestamp w) w1, None), w1) :: tr).
    rewrite NextN_unfold. change ((s :: ss) ++ c) with (s :: ss ++ c).
    rewrite Hn. cbn [snd]. rewrite Hr. repeat split.
    + constructor; [reflexivity | exact Hok].
    + cbn [map seq]. rewrite Hkeys.
      rewrite <- (seq_shift (List.length ss) 1), map_map.
      apply f_equal2.
      * unfold key. cbn [snd w1 lastTimestamp sequence]. reflexivity.
      * apply map_ext. intros k. cbn [w1 lastTimestamp sequence]. f_equal. lia.
    + rewrite stateAfter_cons. cbn [snd]. rewrite Hlast.
      cbn [w1 workerID datacenterID sequence lastTimestamp]. f_equal. lia.
Qed.

(** the first call in a new millisecond [T], then [n] more in it *)
Lemma new_millisecond_run (T : Z) (ss : list Z) (n : nat) :
  forall (w : worker) (c : Clock),
    lastTimestamp w < T -> List.length ss = S n -> Z.of_nat n <= 4095 ->
    Forall (fun s => millis s = T) ss ->
    exists tr,
      NextN (S n) w (ss ++ c) = Some (tr, c) /\
      Forall succeeded tr /\
      map (fun r => key (snd r)) tr = map (fun k => (T, Z.of_nat k)) (seq 0 (S n)) /\
      stateAfter w tr = mkWorker (workerID w) (datacenterID w) (Z.of_nat n) T.
Proof.
  intros w c HT Hlen Hn Hss.
  destruct ss as [|s ss]; [discriminate|].
  inversion Hss as [|? ? Hs Hss']; subst. injection Hlen as Hlen.
  pose proof (Next_reset w s (ss ++ c) ltac:(lia)) as H1. cbv zeta in H1.
  set (w1 := mkWorker (workerID w) (datacenterID w) 0 (millis s)) in *.
  destruct (same_millisecond_run ss w1 c) as (tr & Hr & Hok & Hkeys & Hlast);
    cbn [w1 lastTimestamp sequence]; [exact Hss' | lia | lia |].
  rewrite Hlen in Hr, Hkeys, Hlast.
  exists (((composeID (millis s) w1, None), w1) :: tr).
  rewrite NextN_unfold. change ((s :: ss) ++ c) with (s :: ss ++ c).
  rewrite H1. cbn [snd]. rewrite Hr. repeat split.
  - constructor; [reflexivity | exact Hok].
  - cbn [map seq]. rewrite Hkeys. reflexivity.
  - rewrite stateAfter_cons. cbn [snd]. rewrite Hlast. reflexivity.
Qed.

(** ** Sequence exhaustion *)

(** C4: for a generator [w],
    - a call in the millisecond of lastTimestamp sets the sequence to
      [(sequence + 1) mod 4096], by masking with 4095; unless that is zero
      it returns at once, in the same millisecond;
    - when it is zero the call polls the clock, passes over every reading
      that is not after lastTimestamp, and adopts the first reading after
      it as its effective millisecond, which is strictly greater;
    - of 4097 calls that all sample the millisecond [T], new to the
      generator, the first 4096 are issued at [T] with the sequences
      0 .. 4095, and the 4097th is issued at a strictly greater millisecond;
    - the (timestamp, sequence) pairs of the identifiers issued in any run
      are strictly increasing, hence never repeated. *)
Theorem sequence_exhaustion_waits (w : worker) :
  wfID w ->
  (forall s c,
     millis s = lastTimestamp w ->
     let q := Z.land (Int64.add (sequence w) 1) 4095 in
     q = (sequence w + 1) mod 4096 /\
     (q <> 0 ->
      let w' := mkWorker (workerID w) (datacenterID w) q (millis s) in
      Next w (s :: c) = Some ((composeID (millis s) w', None), w', c)) /\
     (q = 0 ->
      forall polled s' c',
        c = polled ++ s' :: c' ->
        Forall (fun x => millis x <= lastTimestamp w) polled ->
        lastTimestamp w < millis s' ->
        let w' := mkWorker (workerID w) (datacenterID w) 0 (millis s') in
        Next w (s :: c) = Some ((composeID (millis s') w', None), w', c')) /\
     (q = 0 ->
      forall r w' c',
        Next w (s :: c) = Some ((r, w'), c') ->
        snd r = None /\ lastTimestamp w < lastTimestamp w' /\
        effectiveMillis w (s :: c) = Some (lastTimestamp w'))) /\
  (forall T ss c,
     lastTimestamp w < T -> List.length ss = 4096%nat ->
     Forall (fun s => millis s = T) ss ->
     exists tr,
       NextN 4096 w (ss ++ c) = Some (tr, c) /\
       Forall succeeded tr /\
       map (fun r => key (snd r)) tr =
         map (fun k => (T, Z.of_nat k)) (seq 0 4096) /\
       forall s' c0 r w' c',
         millis s' = T ->
         Next (stateAfter w tr) (s' :: c0) = Some ((r, w'), c') ->
         snd r = None /\ T < lastTimestamp w' /\
         effectiveMillis (stateAfter w tr) (s' :: c0) = Some (lastTimestamp w')) /\
  (forall n c tr c',
     NextN n w c = Some (tr, c') ->
     StronglySorted keyLt (map (fun r => key (snd r)) (issued tr)) /\
     NoDup (map (fun r => key (snd r)) (issued tr))).
Proof.
  intros Hwf. split; [|split].
  - intros s c He q. change 4095 with sequenceMask in q. subst q.
    split; [apply masked_increment|]. split; [|split].
    + intros Hnz. apply (Next_increment w s c He Hnz).
    + intros Hz polled s' c' -> Hp Hs'. apply (Next_wait w s polled s' c' He Hz Hp Hs').
    + intros Hz r w' c' H.
      destruct (Next_after_wait w s c r w' c' (conj He Hz) H) as (? & ? & _ & ?).
      auto.
  - intros T ss c HT Hlen Hss.
    destruct (new_millisecond_run T ss 4095 w c HT Hlen ltac:(lia) Hss)
      as (tr & Hr & Hok & Hkeys & Hlast).
    exists tr. split; [exact Hr|]. split; [exact Hok|]. split; [exact Hkeys|].
    intros s' c0 r w' c' Hs' Hn. rewrite Hlast in *.
    set (w4096 := mkWorker (workerID w) (datacenterID w) (Z.of_nat 4095) T) in *.
    assert (Hex : exhausted w4096 (millis s')).
    { split; [exact Hs' | vm_compute; reflexivity]. }
    destruct (Next_after_wait w4096 s' c0 r w' c' Hex Hn) as (Hr' & Hlt & _ & Heff).
    auto.
  - intros n c tr c' H.
    destruct (NextN_issued n w c tr c' Hwf H) as [_ Hs].
    assert (Hsorted : StronglySorted keyLt (map (fun r => key (snd r)) (issued tr))).
    { induction Hs as [|a l Hs IH Ha]; [constructor|].
      cbn [map]. constructor; [exact IH|]. apply Forall_map. exact Ha. }
    split; [exact Hsorted|].
    induction Hsorted as [|k l Hs' IH Hk]; constructor; [|exact IH].
    intros Hin. rewrite Forall_forall in Hk.
    exact (keyLt_irrefl k (Hk k Hin)).
Qed.

Lemma sequence_exhaustion_waits_witness :
  let w := mkWorker 0 0 4095 1546272000100 in
  (Next w [1546272000100000000; 1546272000100000005; 1546272000101000000] =
   Some ((composeID 1546272000101 (mkWorker 0 0 0 1546272000101), None),
         mkWorker 0 0 0 1546272000101, [])) /\
  (exists tr,
     NextN 4096 w (repeat 1546272000102000000 4096 ++ [1546272000102000001]) =
       Some (tr, [1546272000102000001]) /\
     Forall succeeded tr /\
     map (fun r => key (snd r)) tr =
       map (fun k => (1546272000102, Z.of_nat k)) (seq 0 4096) /\
     forall s' c0 r w' c',
       millis s' = 1546272000102 ->
       Next (stateAfter w tr) (s' :: c0) = Some ((r, w'), c') ->
       snd r = None /\ 1546272000102 < lastTimestamp w' /\
       effectiveMillis (stateAfter w tr) (s' :: c0) = Some (lastTimestamp w')) /\
  (StronglySorted keyLt
     (map (fun r => key (snd r))
        (issued [((423624704, None), mkWorker 0 0 0 1546272000101)])) /\
   NoDup
     (map (fun r => key (snd r))
        (issued [((423624704, None), mkWorker 0 0 0 1546272000101)]))).
Proof.
  intros w.
  assert (Hwf : wfID w) by (unfold wfID; simpl; lia).
  destruct (sequence_exhaustion_waits w Hwf) as (P1 & P2 & P3).
  split; [|split].
  - destruct (P1 1546272000100000000
                [1546272000100000005; 1546272000101000000] eq_refl)
      as (_ & _ & Hwait & _).
    assert (Hp : Forall (fun x => millis x <= lastTimestamp w) [1546272000100000005])
      by (repeat constructor; vm_compute; discriminate).
    assert (Hs' : lastTimestamp w < millis 1546272000101000000)
      by (vm_compute; reflexivity).
    exact (Hwait eq_refl [1546272000100000005] 1546272000101000000 [] eq_refl Hp Hs').
  - apply (P2 1546272000102 (repeat 1546272000102000000 4096) [1546272000102000001]).
    + simpl. lia.
    + apply repeat_length.
    + apply Forall_forall. intros x Hx. apply repeat_spec in Hx. subst x.
      reflexivity.
  - apply (P3 1%nat [1546272000100000000; 1546272000100000005; 1546272000101000000]
             _ []).
    vm_compute. reflexivity.
Defined.

(** ** Monotonicity *)

(** a run none of whose calls sees the clock regress returns, on a clock
    trace that serves it *)
Lemma NextN_returns (n : nat) :
  forall (w : worker) (c : Clock),
    nonRegressing n w c -> clockServes n w c ->
    exists tr c', NextN n w c = Some (tr, c').
Proof.
  induction n as [|n IH]; intros w c Hnr Hcs.
  - exists [], c. reflexivity.
  - destruct c as [|s rest]; [contradiction|].
    cbn [nonRegressing] in Hnr. cbn [clockServes] in Hcs.
    destruct Hnr as [Hle Hnr]. destruct Hcs as [Hwait Hcs].
    destruct (Next_returns w s rest Hle Hwait) as (id & w1 & c1 & Hn).
    rewrite Hn in Hnr, Hcs. cbn [snd] in Hnr, Hcs.
    destruct (IH w1 c1 Hnr Hcs) as (rs & c' & Hrs).
    exists (((id, None), w1) :: rs), c'.
    rewrite NextN_unfold, Hn. cbn [snd]. rewrite Hrs. reflexivity.
Qed.

(** C1 (amended): when [n] sequential calls on one generator each sample a
    time that is not before the lastTimestamp stored at that moment, the
    [n] returned identifiers are strictly increasing (and no call returned
    an error), provided every effective millisecond [t] of the run
    satisfies [- 2^41 <= t - 1546272000000 < 2^41]. The [n] calls do
    return on every clock trace that holds a reading for each call and
    passes lastTimestamp whenever a call waits for the next millisecond. *)
Theorem NextN_strictly_increasing (n : nat) (w : worker) (c : Clock) :
  wfID w ->
  nonRegressing n w c ->
  (clockServes n w c -> exists tr c', NextN n w c = Some (tr, c')) /\
  (forall tr c',
     NextN n w c = Some (tr, c') ->
     Forall (fun r => inLifetime (lastTimestamp (snd r))) tr ->
     List.length tr = n /\ Forall succeeded tr /\
     StronglySorted Z.lt (map idOf tr)).
Proof.
  intros Hwf Hnr. split.
  - exact (NextN_returns n w c Hnr).
  - intros tr c' H Hlife.
    pose proof (nonRegressing_succeeded n w c tr c' Hnr H) as Hok.
    destruct (NextN_issued n w c tr c' Hwf H) as [Hall Hs].
    rewrite (issued_all tr Hok) in Hall, Hs.
    split; [exact (NextN_length n w c tr c' H)|]. split; [exact Hok|].
    exact (sorted_ids w tr Hall Hlife Hs).
Qed.

(** three calls, the first of which has to wait for the next millisecond *)
Lemma NextN_strictly_increasing_witness :
  let w := mkWorker 0 0 4095 1546272000100 in
  let c := [1546272000100000000; 1546272000100000500; 1546272000101000000;
            1546272000101000700; 1546272000102000000] in
  let tr : list (Ret * worker) :=
    [((423624704, None), mkWorker 0 0 0 1546272000101);
     ((423624705, None), mkWorker 0 0 1 1546272000101);
     ((427819008, None), mkWorker 0 0 0 1546272000102)] in
  (exists tr' c', NextN 3 w c = Some (tr', c')) /\
  (List.length tr = 3%nat /\ Forall succeeded tr /\
   StronglySorted Z.lt (map idOf tr)).
Proof.
  intros w c tr.
  assert (Hwf : wfID w) by (unfold wfID; simpl; lia).
  assert (Hnr : nonRegressing 3 w c) by (vm_compute; repeat split; discriminate).
  destruct (NextN_strictly_increasing 3 w c Hwf Hnr) as [Hreturns Hsorted].
  split.
  - apply Hreturns. cbn [clockServes]. split.
    + intros _. unfold advancesPast.
      apply Exists_cons_tl. apply Exists_cons_hd. vm_compute. reflexivity.
    + assert (E1 : Next w c =
                   Some (((423624704, None), mkWorker 0 0 0 1546272000101),
                         [1546272000101000700; 1546272000102000000]))
        by (vm_compute; reflexivity).
      rewrite E1. cbn [snd].
      split; [intros [_ E]; vm_compute in E; discriminate E|].
      assert (E2 : Next (mkWorker 0 0 0 1546272000101)
                     [1546272000101000700; 1546272000102000000] =
                   Some (((423624705, None), mkWorker 0 0 1 1546272000101),
                         [1546272000102000000]))
        by (vm_compute; reflexivity).
      rewrite E2. cbn [snd].
      split; [intros [E _]; vm_compute in E; discriminate E|].
      destruct (Next _ _) as [[? ?]|]; exact I.
  - apply (Hsorted tr []).
    + vm_compute. reflexivity.
    + unfold tr.
      repeat (apply Forall_cons;
              [unfold inLifetime, twepoch; cbn [snd lastTimestamp]; lia|]).
      apply Forall_nil.
Defined.

(** C1 as stated fails once the timestamp delta leaves its 41 bits: the
    clock moves forward from the last millisecond of the lifetime to the
    next one, both calls return, and the second identifier is the smaller. *)
Lemma NextN_not_increasing_past_lifetime :
  let c := [3745295255551000000; 3745295255552000000] in
  let tr : list (Ret * worker) :=
    [((9223372036850581504, None), mkWorker 0 0 0 3745295255551);
     ((-9223372036854775808, None), mkWorker 0 0 0 3745295255552)] in
  wfID DefaultWorker /\
  nonRegressing 2 DefaultWorker c /\
  NextN 2 DefaultWorker c = Some (tr, []) /\
  Forall succeeded tr /\
  ~ StronglySorted Z.lt (map idOf tr).
Proof.
  intros c tr. split; [unfold wfID; simpl; lia|].
  split; [vm_compute; repeat split; discriminate|].
  split; [vm_compute; reflexivity|].
  split; [repeat constructor|].
  intros Hs. inversion Hs as [|a l _ Hall]; subst.
  inversion Hall as [|b l' Hlt _]; subst.
  vm_compute in Hlt. discriminate Hlt.
Qed.

(** * Further properties of the package *)

(** ** The busy-wait on its own *)

Lemma tilNextMillis_spins (l : Z) (c : Clock) :
  tilNextMillis l c = None <-> Forall (fun s => millis s <= l) c.
Proof.
  induction c as [|s c IH]; simpl.
  - split; [constructor | reflexivity].
  - destruct (millis s <=? l) eqn:E.
    + apply Z.leb_le in E. rewrite IH. split.
      * intros H. constructor; assumption.
      * intros H. inversion H; assumption.
    + apply Z.leb_gt in E. split; [discriminate|].
      intros H. inversion H; subst. lia.
Qed.

(** X1: [tilNextMillis lastTimestamp] returns [t] and leaves the clock [c']
    exactly when the readings it was given are some readings whose
    millisecond is not after [lastTimestamp], then a reading of millisecond
    [t > lastTimestamp], then [c']: it returns the first millisecond that
    is strictly later, and reads nothing beyond it. *)
Theorem tilNextMillis_first_later (l : Z) (c : Clock) (t : Z) (c' : Clock) :
  tilNextMillis l c = Some (t, c') <->
  exists polled s,
    c = polled ++ s :: c' /\
    Forall (fun x => millis x <= l) polled /\
    t = millis s /\ l < t.
Proof.
  split.
  - apply tilNextMillis_sound.
  - intros (polled & s & -> & Hp & -> & Hl).
    apply tilNextMillis_complete; assumption.
Qed.

Lemma tilNextMillis_first_later_witness :
  tilNextMillis 1546272000100
    [1546272000100000007; 1546272000099000000; 1546272000102000003;
     1546272000101000000] =
  Some (1546272000102, [1546272000101000000]).
Proof.
  apply (proj2 (tilNextMillis_first_later 1546272000100 _ 1546272000102 _)).
  exists [1546272000100000007; 1546272000099000000], 1546272000102000003.
  split; [reflexivity|]. split.
  - repeat (apply Forall_cons; [vm_compute; discriminate|]). apply Forall_nil.
  - split; [vm_compute; reflexivity | lia].
Defined.

(** X2: [tilNextMillis] does not return within the readings it is given
    exactly when none of them is later than [lastTimestamp]: a clock that
    stands still or has gone back keeps the call waiting. *)
Theorem tilNextMillis_waits_for_clock (l : Z) (c : Clock) :
  (tilNextMillis l c = None <-> Forall (fun s => millis s <= l) c) /\
  (advancesPast l c <-> exists t c', tilNextMillis l c = Some (t, c')).
Proof.
  split; [apply tilNextMillis_spins|]. split.
  - apply tilNextMillis_returns.
  - intros (t & c' & H).
    destruct (tilNextMillis_sound _ _ _ _ H) as (polled & s & -> & _ & -> & Hl).
    unfold advancesPast. apply Exists_exists. exists s. split; [|exact Hl].
    apply in_or_app. right. left. reflexivity.
Qed.

Lemma tilNextMillis_waits_for_clock_witness :
  tilNextMillis 1546272000100 [1546272000100000007; 1546272000099000000] = None.
Proof.
  apply (proj2 (proj1 (tilNextMillis_waits_for_clock 1546272000100
                         [1546272000100000007; 1546272000099000000]))).
  repeat (apply Forall_cons; [vm_compute; discriminate|]). apply Forall_nil.
Defined.

(** ** What a call does to the clock and to lastTimestamp *)

(** the readings a call consumes, the last of which gives the effective
    millisecond of a successful call *)
Lemma Next_consumes (w : worker) (c : Clock) (r : Ret) (w' : worker) (c' : Clock) :
  Next w c = Some ((r, w'), c') ->
  exists s used,
    c = s :: used ++ c' /\
    (~ exhausted w (millis s) -> used = []) /\
    (exhausted w (millis s) -> used <> []) /\
    (snd r = None -> lastTimestamp w' = millis (last used s)).
Proof.
  destruct r as [v [e|]]; intros H.
  - destruct (Next_error_inv _ _ _ _ _ _ H) as (s & -> & Hlt & _).
    exists s, []. repeat split; auto; try discriminate.
    intros [He _]. lia.
  - destruct (Next_success_inv _ _ _ _ _ H)
      as (s & rest & t & w1 & -> & _ & Ha & -> & _).
    exists s. cbn [set_lastTimestamp lastTimestamp].
    destruct (advance_inv _ _ _ _ _ _ Ha)
      as [(Hne & -> & _ & ->) | [(_ & Hnz & -> & _ & ->) | (He & Hz & _ & Ht)]].
    + exists []. repeat split; auto. intros [He _]. contradiction.
    + exists []. repeat split; auto. intros [_ Hz]. contradiction.
    + destruct (tilNextMillis_sound _ _ _ _ Ht) as (polled & s' & -> & _ & -> & _).
      exists (polled ++ [s']). rewrite <- app_assoc. cbn [app].
      repeat split.
      * intros Hn. exfalso. apply Hn. split; assumption.
      * intros _ E. apply app_eq_nil in E. destruct E as [_ E]. discriminate E.
      * intros _. rewrite last_last. reflexivity.
Qed.

(** X3: a call reads the clock once, unless it sampled the millisecond of
    lastTimestamp with the sequence at its last value: then, and only then,
    it reads further samples. The unread samples are left in order. *)
Theorem Next_reads_clock_once_unless_exhausted
  (w : worker) (c : Clock) (r : Ret) (w' : worker) (c' : Clock) :
  Next w c = Some ((r, w'), c') ->
  exists s used,
    c = s :: used ++ c' /\
    (~ exhausted w (millis s) -> used = []) /\
    (exhausted w (millis s) -> used <> []).
Proof.
  intros H. destruct (Next_consumes _ _ _ _ _ H) as (s & used & Hc & H1 & H2 & _).
  exists s, used. auto.
Qed.

Lemma Next_reads_clock_once_unless_exhausted_witness :
  exists s used,
    [1546272000100000000; 1546272000100000005; 1546272000101000000; 7] =
      s :: used ++ [7] /\
    (~ exhausted (mkWorker 0 0 4095 1546272000100) (millis s) -> used = []) /\
    (exhausted (mkWorker 0 0 4095 1546272000100) (millis s) -> used <> []).
Proof.
  apply (Next_reads_clock_once_unless_exhausted
           (mkWorker 0 0 4095 1546272000100)
           [1546272000100000000; 1546272000100000005; 1546272000101000000; 7]
           (423624704, None) (mkWorker 0 0 0 1546272000101) [7]).
  vm_compute. reflexivity.
Defined.

Lemma Next_lastTimestamp_le (w : worker) (c : Clock) (r : Ret) (w' : worker) (c' : Clock) :
  Next w c = Some ((r, w'), c') -> lastTimestamp w <= lastTimestamp w'.
Proof.
  destruct r as [v [e|]]; intros H.
  - destruct (Next_error_inv _ _ _ _ _ _ H) as (s & _ & _ & _ & ->). lia.
  - destruct (Next_success_inv _ _ _ _ _ H)
      as (s & rest & t & w1 & -> & Hle & Ha & -> & _).
    cbn [set_lastTimestamp lastTimestamp].
    destruct (advance_inv _ _ _ _ _ _ Ha)
      as [(_ & -> & _) | [(_ & _ & -> & _) | (_ & _ & _ & Ht)]]; try lia.
    destruct (tilNextMillis_sound _ _ _ _ Ht) as (_ & _ & _ & _ & _ & Hl). lia.
Qed.

(** X4: lastTimestamp never goes back: after every call of a run, failed or
    not, it is at least what it was before the run. *)
Theorem NextN_lastTimestamp_never_decreases (n : nat) :
  forall (w : worker) (c : Clock) (tr : list (Ret * worker)) (c' : Clock),
    NextN n w c = Some (tr, c') ->
    Forall (fun r => lastTimestamp w <= lastTimestamp (snd r)) tr /\
    lastTimestamp w <= lastTimestamp (stateAfter w tr).
Proof.
  induction n as [|n IH]; intros w c tr c' H.
  - inversion H. split; [constructor | cbn; lia].
  - destruct (NextN_step_inv _ _ _ _ _ H) as ([r w1] & c1 & rs & Hn & Hr & ->).
    cbn [snd] in Hr.
    pose proof (Next_lastTimestamp_le _ _ _ _ _ Hn) as Hle.
    destruct (IH _ _ _ _ Hr) as [Hall Hlast]. split.
    + constructor; [exact Hle|].
      eapply Forall_impl; [|exact Hall]. cbn. intros a Ha. lia.
    + rewrite stateAfter_cons. cbn [snd]. lia.
Qed.

Lemma NextN_lastTimestamp_never_decreases_witness :
  let w := mkWorker 3 5 7 1546272000100 in
  let tr : list (Ret * worker) :=
    [((0, Some (Errorf "Clock moved backwards.  Refusing to generate id for %d milliseconds" 50)),
      mkWorker 3 5 7 1546272000100);
     ((424292352, None), mkWorker 3 5 0 1546272000101)] in
  Forall (fun r => lastTimestamp w <= lastTimestamp (snd r)) tr /\
  lastTimestamp w <= lastTimestamp (stateAfter w tr).
Proof.
  intros w tr.
  apply (NextN_lastTimestamp_never_decreases 2 w
           [1546272000050000000; 1546272000101000000] tr []).
  vm_compute. reflexivity.
Defined.

(** ** Invariants of a generator *)

(** X5: every state of a generator built by [NewWorker wid dcid] from
    uint8 arguments, after any number of calls on int64 clock readings,
    holds the identities it was built with, both at most 31, a sequence in
    [0, 4095], and a lastTimestamp that is zero or the millisecond of a
    reading: between 0 and 9223372036854. *)
Theorem generator_invariant (wid dcid : Z) (w : worker) :
  0 <= wid -> 0 <= dcid ->
  generatorOf wid dcid w ->
  workerID w = wid /\ datacenterID w = dcid /\
  wid <= 31 /\ dcid <= 31 /\
  0 <= sequence w <= 4095 /\
  0 <= lastTimestamp w <= 9223372036854.
Proof.
  intros Hwid Hdcid G.
  destruct (generatorOf_wfID wid dcid w Hwid Hdcid G) as ((Hw & Hd & Hq) & Ew & Ed).
  pose proof (generatorOf_isMillis wid dcid w G) as Hm. unfold isMillis in Hm.
  assert (H0 : 0 <= lastTimestamp w).
  { clear - G. induction G as [w H | w c r w' c' G IH _ H].
    - unfold NewWorker in H.
      destruct (wid >? maxWorkerID); [discriminate|].
      destruct (dcid >? maxDatacenterID); [discriminate|].
      inversion H; subst. cbn. lia.
    - pose proof (Next_lastTimestamp_le _ _ _ _ _ H). lia. }
  repeat split; try lia; assumption.
Qed.

Lemma generator_invariant_witness :
  workerID (mkWorker 1 0 1 1546272000000) = 1 /\
  datacenterID (mkWorker 1 0 1 1546272000000) = 0 /\
  1 <= 31 /\ 0 <= 31 /\
  0 <= sequence (mkWorker 1 0 1 1546272000000) <= 4095 /\
  0 <= lastTimestamp (mkWorker 1 0 1 1546272000000) <= 9223372036854.
Proof.
  apply (generator_invariant 1 0 (mkWorker 1 0 1 1546272000000)); try lia.
  apply (gen_next 1 0 (mkWorker 1 0 0 1546272000000) [1546272000000999999]
           (4097, None) _ []).
  - apply (gen_next 1 0 (mkWorker 1 0 0 0) [1546272000000000000] (4096, None) _ []).
    + apply gen_new. reflexivity.
    + repeat constructor; vm_compute; discriminate.
    + vm_compute. reflexivity.
  - repeat constructor; vm_compute; discriminate.
  - vm_compute. reflexivity.
Defined.

(** ** The identifier as a number *)

(** the timestamp part of an identifier, as int64 keeps it *)
Lemma composeID_fields_range (t : Z) (w : worker) :
  wfID w ->
  exists m, - 2 ^ 41 <= m < 2 ^ 41 /\
            composeID t w =
            m * 2 ^ 22 + datacenterID w * 2 ^ 17 + workerID w * 2 ^ 12 + sequence w.
Proof.
  intros (Hw & Hd & Hs). unfold composeID.
  change timestampLeftShift with 22. change datacenterIDShift with 17.
  change workerIDShift with 12.
  destruct (shl_multiple (Int64.sub t twepoch) 22) as [m Hm]; [lia|].
  pose proof (wrap64_range (Z.shiftl (Int64.sub t twepoch) 22)) as Hr.
  fold (Int64.shl (Int64.sub t twepoch) 22) in Hr. rewrite Hm in Hr.
  unfold Int64.inRange, Int64.min, Int64.max in Hr.
  exists m. split.
  - change (2 ^ 63) with (2 ^ 41 * 2 ^ 22) in Hr.
    change (2 ^ 22) with 4194304 in Hr. change (2 ^ 41) with 2199023255552 in *.
    lia.
  - rewrite Hm, !shl_field by lia. apply lor_fields; assumption.
Qed.

(** X6: the identifier of a successful call is an int64 value. It is not
    negative when the effective millisecond is in the 2^41 ms that start at
    the epoch 1546272000000, and negative when the effective millisecond is
    in the 2^41 ms before the epoch. *)
Theorem Next_identifier_sign
  (w : worker) (c : Clock) (id : Z) (w' : worker) (c' : Clock) :
  wfID w ->
  Next w c = Some ((id, None), w', c') ->
  Int64.inRange id /\
  (twepoch <= lastTimestamp w' < twepoch + 2 ^ 41 -> 0 <= id) /\
  (twepoch - 2 ^ 41 <= lastTimestamp w' < twepoch -> id < 0).
Proof.
  intros Hwf H.
  destruct (Next_success_step _ _ _ _ _ Hwf H) as (Hwf' & _ & _ & _ & ->).
  split; [|split].
  - destruct (composeID_fields_range (lastTimestamp w') w' Hwf') as (m & Hm & ->).
    destruct Hwf' as (? & ? & ?).
    unfold Int64.inRange, Int64.min, Int64.max.
    change (2 ^ 63) with (2199023255552 * 4194304).
    change (2 ^ 41) with 2199023255552 in Hm. change (2 ^ 22) with 4194304.
    change (2 ^ 17) with 131072. change (2 ^ 12) with 4096. lia.
  - intros Ht. rewrite composeID_exact by (auto; unfold inLifetime; lia).
    destruct Hwf' as (? & ? & ?). change (2 ^ 22) with 4194304.
    change (2 ^ 17) with 131072. change (2 ^ 12) with 4096. lia.
  - intros Ht. rewrite composeID_exact by (auto; unfold inLifetime; lia).
    destruct Hwf' as (? & ? & ?). change (2 ^ 22) with 4194304.
    change (2 ^ 17) with 131072. change (2 ^ 12) with 4096. lia.
Qed.

Lemma Next_identifier_sign_witness :
  Int64.inRange (-419299320) /\
  (twepoch <= lastTimestamp (mkWorker 0 1 8 1546271999900) < twepoch + 2 ^ 41 ->
   0 <= -419299320) /\
  (twepoch - 2 ^ 41 <= lastTimestamp (mkWorker 0 1 8 1546271999900) < twepoch ->
   -419299320 < 0).
Proof.
  apply (Next_identifier_sign (mkWorker 0 1 7 1546271999900)
           [1546271999900000000] _ _ []).
  - unfold wfID. simpl. lia.
  - vm_compute. reflexivity.
Defined.

(** X7: within the lifetime of the scheme the four fields are read back
    from the identifier of a successful call by the inverse shifts: the
    timestamp delta plus the epoch is the effective millisecond, and the
    datacenter, worker and sequence fields are those of the generator. *)
Theorem Next_identifier_round_trip
  (w : worker) (c : Clock) (id : Z) (w' : worker) (c' : Clock) :
  wfID w ->
  Next w c = Some ((id, None), w', c') ->
  inLifetime (lastTimestamp w') ->
  decodeTimestampDelta id + twepoch = lastTimestamp w' /\
  decodeDatacenterID id = datacenterID w /\
  decodeWorkerID id = workerID w /\
  decodeSequence id = sequence w'.
Proof.
  intros Hwf H Hlife.
  destruct (Next_success_step _ _ _ _ _ Hwf H) as (Hwf' & Ew & Ed & _ & ->).
  rewrite (composeID_exact _ _ Hwf' Hlife).
  destruct Hwf' as (? & ? & ?).
  destruct (decode_fields (lastTimestamp w' - twepoch)
              (datacenterID w') (workerID w') (sequence w'))
    as (Ht & Hd & Hw & Hq); try assumption.
  rewrite Ht, Hd, Hw, Hq. repeat split; try congruence. lia.
Qed.

Lemma Next_identifier_round_trip_witness :
  decodeTimestampDelta 420106248 + twepoch =
    lastTimestamp (mkWorker 5 5 8 1546272000100) /\
  decodeDatacenterID 420106248 = datacenterID (mkWorker 5 5 7 1546272000100) /\
  decodeWorkerID 420106248 = workerID (mkWorker 5 5 7 1546272000100) /\
  decodeSequence 420106248 = sequence (mkWorker 5 5 8 1546272000100).
Proof.
  apply (Next_identifier_round_trip (mkWorker 5 5 7 1546272000100)
           [1546272000100000000] _ _ []).
  - unfold wfID. simpl. lia.
  - vm_compute. reflexivity.
  - unfold inLifetime, twepoch. simpl. lia.
Defined.

(** ** Runs with failed calls *)

Lemma StronglySorted_lt_NoDup (l : list Z) : StronglySorted Z.lt l -> NoDup l.
Proof.
  induction 1 as [|a l _ IH Ha]; constructor; [|exact IH].
  intros Hin. rewrite Forall_forall in Ha. specialize (Ha a Hin). lia.
Qed.

(** X8: failed calls do not disturb the order: within the lifetime of the
    scheme, the identifiers that any run of calls on one generator returns,
    whether or not calls in between failed on a clock regression, are
    strictly increasing in call order, hence pairwise distinct. *)
Theorem NextN_issued_strictly_increasing
  (n : nat) (w : worker) (c : Clock) (tr : list (Ret * worker)) (c' : Clock) :
  wfID w ->
  NextN n w c = Some (tr, c') ->
  Forall (fun r => inLifetime (lastTimestamp (snd r))) (issued tr) ->
  StronglySorted Z.lt (map idOf (issued tr)) /\ NoDup (map idOf (issued tr)).
Proof.
  intros Hwf H Hlife.
  destruct (NextN_issued n w c tr c' Hwf H) as [Hall Hs].
  pose proof (sorted_ids w (issued tr) Hall Hlife Hs) as Hsorted.
  split; [exact Hsorted | exact (StronglySorted_lt_NoDup _ Hsorted)].
Qed.

Lemma NextN_issued_strictly_increasing_witness :
  let tr : list (Ret * worker) :=
    [((419430400, None), mkWorker 0 0 0 1546272000100);
     ((0, Some (Errorf "Clock moved backwards.  Refusing to generate id for %d milliseconds" 50)),
      mkWorker 0 0 0 1546272000100);
     ((419430401, None), mkWorker 0 0 1 1546272000100)] in
  StronglySorted Z.lt (map idOf (issued tr)) /\ NoDup (map idOf (issued tr)).
Proof.
  intros tr.
  apply (NextN_issued_strictly_increasing 3 DefaultWorker
           [1546272000100000000; 1546272000050000000; 1546272000100999999]
           tr []).
  - unfold wfID. simpl. lia.
  - vm_compute. reflexivity.
  - unfold tr, issued. cbn [filter succeededb fst snd].
    repeat (apply Forall_cons;
            [unfold inLifetime, twepoch; cbn [snd lastTimestamp]; lia|]).
    apply Forall_nil.
Defined.

(** ** The capacity of one millisecond *)

Lemma StronglySorted_filter {A} (R : A -> A -> Prop) (f : A -> bool) (l : list A) :
  StronglySorted R l -> StronglySorted R (filter f l).
Proof.
  induction 1 as [|a l _ IH Ha]; [constructor|].
  cbn [filter]. destruct (f a); [|exact IH].
  constructor; [exact IH|].
  rewrite Forall_forall in *. intros x Hx.
  apply filter_In in Hx. apply Ha. apply Hx.
Qed.

(** a strictly increasing list of integers of [lo .. hi] has at most
    [hi - lo + 1] elements *)
Lemma increasing_in_range_length (hi : Z) (l : list Z) :
  forall lo,
    lo <= hi + 1 ->
    StronglySorted Z.lt l -> Forall (fun x => lo <= x <= hi) l ->
    Z.of_nat (List.length l) <= hi - lo + 1.
Proof.
  induction l as [|a l IH]; intros lo Hlo Hs Hr.
  - cbn. lia.
  - inversion Hs as [|? ? Hs' Ha]; subst. inversion Hr as [|? ? Hra Hr']; subst.
    assert (Hr1 : Forall (fun x => a + 1 <= x <= hi) l).
    { rewrite Forall_forall in *. intros x Hx.
      specialize (Ha x Hx). specialize (Hr' x Hx). lia. }
    specialize (IH (a + 1) ltac:(lia) Hs' Hr1).
    cbn [List.length]. lia.
Qed.

(** X9: in any run of calls on one generator, at most 4096 identifiers are
    issued with the same effective millisecond. *)
Theorem NextN_at_most_4096_per_millisecond
  (n : nat) (w : worker) (c : Clock) (tr : list (Ret * worker)) (c' : Clock) (T : Z) :
  wfID w ->
  NextN n w c = Some (tr, c') ->
  (List.length (filter (fun r => (lastTimestamp (snd r) =? T)%Z) (issued tr)) <= 4096)%nat.
Proof.
  intros Hwf H.
  destruct (NextN_issued n w c tr c' Hwf H) as [Hall Hs].
  set (f := fun r : Ret * worker => lastTimestamp (snd r) =? T).
  pose proof (StronglySorted_filter _ f _ Hs) as Hsf.
  assert (Hallf : Forall (issuedAfter w) (filter f (issued tr))).
  { rewrite Forall_forall in *. intros x Hx. apply filter_In in Hx.
    apply Hall. apply Hx. }
  assert (HT : Forall (fun r => lastTimestamp (snd r) = T) (filter f (issued tr))).
  { rewrite Forall_forall. intros x Hx. apply filter_In in Hx.
    destruct Hx as [_ Hx]. unfold f in Hx. lia. }
  assert (Hq : StronglySorted Z.lt (map (fun r => sequence (snd r)) (filter f (issued tr))) /\
               Forall (fun x => 0 <= x <= 4095)
                      (map (fun r => sequence (snd r)) (filter f (issued tr)))).
  { induction Hsf as [|a l Hsl IH Ha]; [split; constructor|].
    inversion Hallf as [|? ? Ia Il]; subst. inversion HT as [|? ? Ta Tl]; subst.
    destruct (IH Il Tl) as [IH1 IH2]. cbn [map]. split.
    - constructor; [exact IH1|]. apply Forall_map.
      rewrite Forall_forall in *. intros b Hb.
      specialize (Ha b Hb). specialize (Tl b Hb).
      unfold keyLt, key in Ha. cbn [fst snd] in Ha. lia.
    - constructor; [|exact IH2]. destruct Ia as ((_ & _ & Hqa) & _). exact Hqa. }
  destruct Hq as [Hq1 Hq2].
  pose proof (increasing_in_range_length 4095 _ 0 ltac:(lia) Hq1 Hq2) as Hlen.
  rewrite length_map in Hlen. lia.
Qed.

Lemma NextN_at_most_4096_per_millisecond_witness :
  let tr : list (Ret * worker) :=
    [((419430400, None), mkWorker 0 0 0 1546272000100);
     ((419430401, None), mkWorker 0 0 1 1546272000100);
     ((423624704, None), mkWorker 0 0 0 1546272000101)] in
  (List.length
     (filter (fun r => (lastTimestamp (snd r) =? 1546272000100)%Z) (issued tr))
   <= 4096)%nat.
Proof.
  intros tr.
  apply (NextN_at_most_4096_per_millisecond 3 DefaultWorker
           [1546272000100000000; 1546272000100999999; 1546272000101000000]
           tr []).
  - unfold wfID. simpl. lia.
  - vm_compute. reflexivity.
Defined.

(** ** A clock that does not go back *)

Lemma millis_mono (a b : Z) :
  Int64.inRange a -> Int64.inRange b -> a <= b -> millis a <= millis b.
Proof.
  intros Ha Hb Hab.
  destruct (millis_exact a Ha) as [-> _]. destruct (millis_exact b Hb) as [-> _].
  apply Z.quot_le_mono; lia.
Qed.

Lemma last_In {A} (l : list A) (d : A) : In (last l d) (d :: l).
Proof.
  revert d. induction l as [|a l IH]; intros d; [left; reflexivity|].
  rewrite last_cons. right. apply IH.
Qed.

Lemma StronglySorted_app_le (l1 l2 : list Z) :
  StronglySorted Z.le (l1 ++ l2) ->
  StronglySorted Z.le l2 /\ forall a b, In a l1 -> In b l2 -> a <= b.
Proof.
  induction l1 as [|x l1 IH]; cbn [app]; intros H.
  - split; [exact H | intros a b []].
  - inversion H as [|? ? Hs Hx]; subst. destruct (IH Hs) as [H2 Hle].
    split; [exact H2|]. intros a b [<-|Ha] Hb.
    + rewrite Forall_forall in Hx. apply Hx. apply in_or_app. right. exact Hb.
    + apply Hle; assumption.
Qed.

Lemma monotone_clock_run (n : nat) :
  forall (w : worker) (c : Clock) (tr : list (Ret * worker)) (c' : Clock),
    Forall Int64.inRange c -> StronglySorted Z.le c ->
    Forall (fun s => lastTimestamp w <= millis s) c ->
    NextN n w c = Some (tr, c') -> Forall succeeded tr.
Proof.
  induction n as [|n IH]; intros w c tr c' Hr Hs Hw H.
  - inversion H. constructor.
  - destruct (NextN_step_inv _ _ _ _ _ H) as ([[v e] w1] & c1 & rs & Hn & Hrs & ->).
    cbn [snd] in Hrs.
    assert (He : e = None).
    { destruct e as [e|]; [|reflexivity].
      destruct (Next_error_inv _ _ _ _ _ _ Hn) as (s & -> & Hlt & _).
      inversion Hw; subst. lia. }
    subst e. constructor; [reflexivity|].
    destruct (Next_consumes _ _ _ _ _ Hn) as (s & used & -> & _ & _ & Hl).
    specialize (Hl eq_refl).
    change (s :: used ++ c1) with ((s :: used) ++ c1) in Hs, Hr.
    destruct (StronglySorted_app_le _ _ Hs) as [Hs1 Hle].
    apply Forall_app in Hr. destruct Hr as [Hru Hr1].
    apply (IH w1 c1 rs c' Hr1 Hs1); [|exact Hrs].
    rewrite Forall_forall in *. intros x Hx. rewrite Hl.
    pose proof (last_In used s) as Hin.
    apply millis_mono; auto.
Qed.

(** X10: on a clock whose int64 nanosecond readings never decrease, and
    whose first reading is not before the generator's lastTimestamp, no call
    of a run fails: every call that returns gives an identifier. *)
Theorem NextN_monotone_clock_never_fails
  (n : nat) (w : worker) (c : Clock) (tr : list (Ret * worker)) (c' : Clock) :
  Forall Int64.inRange c ->
  StronglySorted Z.le c ->
  (forall s, hd_error c = Some s -> lastTimestamp w <= millis s) ->
  NextN n w c = Some (tr, c') ->
  Forall succeeded tr /\ List.length tr = n.
Proof.
  intros Hr Hs Hhd H. split; [|exact (NextN_length n w c tr c' H)].
  apply (monotone_clock_run n w c tr c' Hr Hs); [|exact H].
  destruct c as [|s c]; [constructor|].
  specialize (Hhd s eq_refl).
  inversion Hs as [|? ? _ Hall]; subst. inversion Hr as [|? ? Hrs Hrc]; subst.
  constructor; [exact Hhd|].
  rewrite Forall_forall in *. intros x Hx.
  pose proof (millis_mono s x Hrs (Hrc x Hx) (Hall x Hx)). lia.
Qed.

Lemma NextN_monotone_clock_never_fails_witness :
  let tr : list (Ret * worker) :=
    [((419430400, None), mkWorker 0 0 0 1546272000100);
     ((419430401, None), mkWorker 0 0 1 1546272000100);
     ((423624704, None), mkWorker 0 0 0 1546272000101)] in
  Forall succeeded tr /\ List.length tr = 3%nat.
Proof.
  intros tr.
  apply (NextN_monotone_clock_never_fails 3 DefaultWorker
           [1546272000100000000; 1546272000100999999; 1546272000101000000]
           tr []).
  - repeat (apply Forall_cons;
            [unfold Int64.inRange, Int64.min, Int64.max; lia|]).
    apply Forall_nil.
  - repeat (apply SSorted_cons;
            [|repeat (apply Forall_cons; [lia|]); apply Forall_nil]).
    apply SSorted_nil.
  - intros s Hs. inversion Hs; subst. vm_compute. discriminate.
  - vm_compute. reflexivity.
Defined.

(** ** The first call on a fresh generator *)

(** X11: the first call on the generator that [NewWorker wid dcid]
    returned, on an int64 reading [s]: when the millisecond of [s] is
    positive the call issues the identifier of that millisecond with
    sequence 0; when it is exactly 0, equal to the initial lastTimestamp,
    the sequence is 1; when it is negative (a clock before 1970) the call
    fails with a clock regression of [- millis s] and the generator stays
    fresh. *)
Theorem Next_first_call (wid dcid : Z) (w : worker) (s : Z) (c : Clock) :
  NewWorker wid dcid = Returned w ->
  Int64.inRange s ->
  (0 < millis s ->
   let w' := mkWorker wid dcid 0 (millis s) in
   Next w (s :: c) = Some ((composeID (millis s) w', None), w', c)) /\
  (millis s = 0 ->
   let w' := mkWorker wid dcid 1 0 in
   Next w (s :: c) = Some ((composeID 0 w', None), w', c)) /\
  (millis s < 0 ->
   exists format,
     Next w (s :: c) = Some ((0, Some (Errorf format (- millis s))), w, c)).
Proof.
  intros Hnew Hs. unfold NewWorker in Hnew.
  destruct (wid >? maxWorkerID); [discriminate|].
  destruct (dcid >? maxDatacenterID); [discriminate|].
  inversion Hnew; subst w. clear Hnew.
  destruct (millis_exact s Hs) as [_ Hm]. unfold isMillis in Hm.
  split; [|split].
  - intros Hpos. apply (Next_reset (mkWorker wid dcid 0 0) s c). cbn. lia.
  - intros Hz. cbv zeta.
    pose proof (Next_increment (mkWorker wid dcid 0 0) s c) as H.
    cbn [sequence lastTimestamp workerID datacenterID] in H.
    change (Z.land (Int64.add 0 1) sequenceMask) with 1 in H.
    rewrite Hz in *. apply H; [reflexivity | lia].
  - intros Hneg. rewrite Next_unfold. cbn [lastTimestamp].
    assert (E : (millis s <? 0) = true) by lia. rewrite E.
    eexists. unfold Int64.sub. rewrite wrap64_small; [reflexivity|].
    unfold Int64.inRange, Int64.min, Int64.max. lia.
Qed.

Lemma Next_first_call_witness :
  (0 < millis (-1500000) ->
   let w' := mkWorker 3 5 0 (millis (-1500000)) in
   Next (mkWorker 3 5 0 0) [-1500000] =
   Some ((composeID (millis (-1500000)) w', None), w', [])) /\
  (millis (-1500000) = 0 ->
   let w' := mkWorker 3 5 1 0 in
   Next (mkWorker 3 5 0 0) [-1500000] = Some ((composeID 0 w', None), w', [])) /\
  (millis (-1500000) < 0 ->
   exists format,
     Next (mkWorker 3 5 0 0) [-1500000] =
     Some ((0, Some (Errorf format (- millis (-1500000)))), mkWorker 3 5 0 0, [])).
Proof.
  apply (Next_first_call 3 5 (mkWorker 3 5 0 0) (-1500000) []).
  - reflexivity.
  - unfold Int64.inRange, Int64.min, Int64.max. lia.
Defined.

(** ** The package-level generator *)

Lemma defaultWorkerState_wfID (d : worker) :
  defaultWorkerState d -> wfID d /\ workerID d = 0 /\ datacenterID d = 0.
Proof.
  induction 1 as [|d c r d' c' _ IH H].
  - unfold wfID, DefaultWorker. cbn. lia.
  - unfold snowflake_Next in H. destruct IH as (Hwf & Ew & Ed).
    destruct (Next_identity _ _ _ _ _ H) as [-> ->].
    split; [exact (Next_wfID _ _ _ _ _ Hwf H) | auto].
Qed.

(** X12: the identifiers that the package-level [Next] returns, at any
    point of the life of [DefaultWorker], carry worker 0 and datacenter 0:
    within the lifetime of the scheme such an identifier is the timestamp
    delta times 2^22 plus the sequence. *)
Theorem snowflake_Next_default_identity
  (d : worker) (c : Clock) (id : Z) (d' : worker) (c' : Clock) :
  defaultWorkerState d ->
  snowflake_Next d c = Some ((id, None), d', c') ->
  decodeWorkerID id = 0 /\ decodeDatacenterID id = 0 /\
  decodeSequence id = sequence d' /\
  (inLifetime (lastTimestamp d') ->
   id = (lastTimestamp d' - twepoch) * 2 ^ 22 + sequence d').
Proof.
  intros Hd H. unfold snowflake_Next in H.
  destruct (defaultWorkerState_wfID d Hd) as (Hwf & Ew & Ed).
  destruct (Next_success_step _ _ _ _ _ Hwf H) as (Hwf' & Ew' & Ed' & _ & ->).
  rewrite Ew in Ew'. rewrite Ed in Ed'.
  assert (Hdec : decodeWorkerID (composeID (lastTimestamp d') d') = 0 /\
                 decodeDatacenterID (composeID (lastTimestamp d') d') = 0 /\
                 decodeSequence (composeID (lastTimestamp d') d') = sequence d').
  { destruct (composeID_fields (lastTimestamp d') d' Hwf') as [m ->].
    destruct Hwf' as (? & ? & ?).
    destruct (decode_fields m (datacenterID d') (workerID d') (sequence d'))
      as (_ & Hdd & Hdw & Hdq); try assumption.
    rewrite Hdd, Hdw, Hdq. auto. }
  destruct Hdec as (Hw & Hdc & Hq). repeat split; try assumption.
  intros Hlife. rewrite (composeID_exact _ _ Hwf' Hlife), Ew', Ed'. lia.
Qed.

Lemma snowflake_Next_default_identity_witness :
  decodeWorkerID 419430401 = 0 /\ decodeDatacenterID 419430401 = 0 /\
  decodeSequence 419430401 = sequence (mkWorker 0 0 1 1546272000100) /\
  (inLifetime (lastTimestamp (mkWorker 0 0 1 1546272000100)) ->
   419430401 =
   (lastTimestamp (mkWorker 0 0 1 1546272000100) - twepoch) * 2 ^ 22
   + sequence (mkWorker 0 0 1 1546272000100)).
Proof.
  apply (snowflake_Next_default_identity (mkWorker 0 0 0 1546272000100)
           [1546272000100999999] 419430401 (mkWorker 0 0 1 1546272000100) []).
  - apply (default_next DefaultWorker [1546272000100000000] (419430400, None) _ []).
    + apply default_initial.
    + vm_compute. reflexivity.
  - vm_compute. reflexivity.
Defined.
